(** * prove_pi_limit_42_english.py: the computational core

    A shallow embedding of the two math functions of the script
    ([calculate_nmax], [pi_eff]), of its module-level constants and of the
    convergence scan it runs over [pi_eff], with the properties that the
    specification states about them.

    Numbers.  The script computes with numpy's [float64].  A [float64] is
    modelled by the real number it denotes, or by one of the three IEEE
    specials.  What is modelled of binary64 is its exceptional behaviour:
    NaN, the two infinities, division by zero, the domain of [log] and
    [sqrt], overflow at [2^1024] and underflow to zero at [2^-1075].
    What is not modelled there is rounding to 53 bits and the sign of zero:
    inside the exponent range every operation of [Numpy] is exact.

    Rounding.  Where a statement is itself about the accuracy of a result,
    the computation is taken with its rounding errors: the relations of
    [Rounded] follow the same lines of the script operation by operation,
    each operation returning its exact result with a bounded relative error,
    and the statements hold for every such run. *)

From Stdlib Require Import Reals Lra Lia ZArith List Bool Psatz Sorted.
Import ListNotations.
Local Open Scope R_scope.

(** ** numpy scalars *)

Module Numpy.

Inductive float64 : Type :=
| Fin (r : R)
| PInf
| NInf
| NaN.

Inductive sgn : Type := Neg | Zero | Pos.

Definition Rsgn (x : R) : sgn :=
  match total_order_T x 0 with
  | inleft (left _) => Neg
  | inleft (right _) => Zero
  | inright _ => Pos
  end.

Definition Rltb (x y : R) : bool := if Rlt_dec x y then true else false.
Definition Rleb (x y : R) : bool := if Rle_dec x y then true else false.
Definition Reqb (x y : R) : bool := if Req_dec_T x y then true else false.

(** The exponent range of binary64: a result of magnitude [2^1024] or more
    overflows to an infinity, a result of magnitude [2^-1075] or less
    underflows to zero. *)
Definition overflow_threshold : R := 2 ^ 1024.
Definition underflow_threshold : R := / 2 ^ 1075.

Definition float64_of_R (r : R) : float64 :=
  if Rleb overflow_threshold (Rabs r) then (if Rltb 0 r then PInf else NInf)
  else if Rleb (Rabs r) underflow_threshold then Fin 0
  else Fin r.

(** [x] lies between [2^-m] and [2^n]: for [m <= 1074] and [n <= 1023] it is
    a positive number inside the exponent range. *)
Definition in_window (m n : nat) (x : R) : Prop := / 2 ^ m <= x <= 2 ^ n.

(** A Python [int] or an [np.int64] used in float arithmetic. *)
Definition np_int (n : Z) : float64 := Fin (IZR n).

Definition np_negative (a : float64) : float64 :=
  match a with
  | Fin x => Fin (- x)
  | PInf => NInf
  | NInf => PInf
  | NaN => NaN
  end.

Definition np_abs (a : float64) : float64 :=
  match a with
  | Fin x => Fin (Rabs x)
  | PInf | NInf => PInf
  | NaN => NaN
  end.

Definition np_add (a b : float64) : float64 :=
  match a, b with
  | NaN, _ | _, NaN => NaN
  | Fin x, Fin y => float64_of_R (x + y)
  | PInf, NInf | NInf, PInf => NaN
  | PInf, _ | _, PInf => PInf
  | NInf, _ | _, NInf => NInf
  end.

Definition np_subtract (a b : float64) : float64 := np_add a (np_negative b).

Definition np_multiply (a b : float64) : float64 :=
  match a, b with
  | NaN, _ | _, NaN => NaN
  | Fin x, Fin y => float64_of_R (x * y)
  | Fin x, PInf | PInf, Fin x =>
      match Rsgn x with Pos => PInf | Zero => NaN | Neg => NInf end
  | Fin x, NInf | NInf, Fin x =>
      match Rsgn x with Pos => NInf | Zero => NaN | Neg => PInf end
  | PInf, PInf | NInf, NInf => PInf
  | PInf, NInf | NInf, PInf => NInf
  end.

(** [x / 0] does not raise on numpy scalars: it is an infinity, or NaN for
    [0 / 0], with a RuntimeWarning. *)
Definition np_divide (a b : float64) : float64 :=
  match a, b with
  | NaN, _ | _, NaN => NaN
  | Fin x, Fin y =>
      match Rsgn y with
      | Zero => match Rsgn x with Pos => PInf | Zero => NaN | Neg => NInf end
      | _ => float64_of_R (x / y)
      end
  | Fin _, PInf | Fin _, NInf => Fin 0
  | PInf, Fin y => match Rsgn y with Neg => NInf | _ => PInf end
  | NInf, Fin y => match Rsgn y with Neg => PInf | _ => NInf end
  | PInf, PInf | PInf, NInf | NInf, PInf | NInf, NInf => NaN
  end.

Definition np_sqrt (a : float64) : float64 :=
  match a with
  | Fin x => match Rsgn x with Neg => NaN | _ => float64_of_R (sqrt x) end
  | PInf => PInf
  | NInf | NaN => NaN
  end.

Definition np_exp (a : float64) : float64 :=
  match a with
  | Fin x => float64_of_R (exp x)
  | PInf => PInf
  | NInf => Fin 0
  | NaN => NaN
  end.

(** [np.log] under numpy's default error state, which the script never
    changes: at zero the result is [-inf], at a negative argument it is NaN;
    numpy prints a RuntimeWarning and raises nothing. *)
Definition np_log (a : float64) : float64 :=
  match a with
  | Fin x =>
      match Rsgn x with
      | Pos => float64_of_R (ln x)
      | Zero => NInf
      | Neg => NaN
      end
  | PInf => PInf
  | NInf | NaN => NaN
  end.

Definition is_integer (y : R) : bool := Reqb (IZR (Int_part y)) y.
Definition is_odd_integer (y : R) : bool := is_integer y && Z.odd (Int_part y).

(** [x ** y] on float64, the cases of C's [pow]. *)
Definition np_power (a b : float64) : float64 :=
  match a, b with
  | Fin x, Fin y =>
      if Reqb y 0 then Fin 1
      else if Reqb x 1 then Fin 1
      else match Rsgn x with
           | Pos => float64_of_R (Rpower x y)
           | Zero => if Rltb 0 y then Fin 0 else PInf
           | Neg => if is_integer y then float64_of_R (powerRZ x (Int_part y))
                    else NaN
           end
  | PInf, Fin y => if Reqb y 0 then Fin 1 else if Rltb 0 y then PInf else Fin 0
  | NInf, Fin y =>
      if Reqb y 0 then Fin 1
      else if Rltb 0 y then (if is_odd_integer y then NInf else PInf)
      else Fin 0
  | NaN, Fin y => if Reqb y 0 then Fin 1 else NaN
  | Fin x, PInf =>
      if Reqb (Rabs x) 1 then Fin 1
      else if Rltb (Rabs x) 1 then Fin 0 else PInf
  | Fin x, NInf =>
      if Reqb (Rabs x) 1 then Fin 1
      else if Rltb (Rabs x) 1 then PInf else Fin 0
  | Fin x, NaN => if Reqb x 1 then Fin 1 else NaN
  | PInf, PInf | NInf, PInf => PInf
  | PInf, NInf | NInf, NInf => Fin 0
  | NaN, _ | _, NaN => NaN
  end.

(** Comparisons: false as soon as one side is NaN. *)
Definition np_less (a b : float64) : bool :=
  match a, b with
  | NaN, _ | _, NaN => false
  | Fin x, Fin y => Rltb x y
  | NInf, Fin _ | NInf, PInf | Fin _, PInf => true
  | _, _ => false
  end.

Definition np_less_equal (a b : float64) : bool :=
  match a, b with
  | NaN, _ | _, NaN => false
  | Fin x, Fin y => Rleb x y
  | NInf, _ | _, PInf => true
  | _, _ => false
  end.

(** Arrays: one-dimensional, as lists. *)

(** [np.arange(start, stop, 1)] *)
Definition np_arange (start stop : Z) : list Z :=
  map (fun k => (start + Z.of_nat k)%Z) (seq 0 (Z.to_nat (stop - start))).

(** [np.diff(a)]: [out[i] = a[i+1] - a[i]], empty below two elements. *)
Fixpoint np_diff (a : list float64) : list float64 :=
  match a with
  | x :: ((y :: _) as t) => np_subtract y x :: np_diff t
  | _ => []
  end.

Fixpoint where_from (i : nat) (mask : list bool) : list nat :=
  match mask with
  | [] => []
  | b :: t => if b then i :: where_from (S i) t else where_from (S i) t
  end.

(** [np.where(mask)[0]]: the indices at which the mask holds, ascending. *)
Definition np_where (mask : list bool) : list nat := where_from 0 mask.

End Numpy.
Export Numpy.

(** ** Python outcomes *)

Inductive exn : Type := IndexError.

Inductive outcome (A : Type) : Type :=
| Returns (a : A)
| Raises (e : exn).
Arguments Returns {A} a.
Arguments Raises {A} e.

Definition bind {A B : Type} (c : outcome A) (k : A -> outcome B) : outcome B :=
  match c with
  | Returns a => k a
  | Raises e => Raises e
  end.

Notation "x <- c ;; k" := (bind c (fun x => k))
  (at level 61, c at next level, right associativity).

(** [a[i]] on a sequence: a negative index counts from the end; out of
    range it raises IndexError. *)
Definition py_getitem {A : Type} (a : list A) (i : Z) : outcome A :=
  let n := Z.of_nat (length a) in
  let j := if (i <? 0)%Z then (i + n)%Z else i in
  if ((0 <=? j) && (j <? n))%Z then
    match nth_error a (Z.to_nat j) with
    | Some x => Returns x
    | None => Raises IndexError
    end
  else Raises IndexError.

(** ** The script *)

(** Modelled from the spec: the constants [hbar], [G], [c] and [pi] that the
    script imports from [scipy.constants], which is not part of the
    sources.  The glossary names them (reduced Planck constant,
    gravitational constant, speed of light, classical circle constant);
    the values are the SI and CODATA ones scipy ships. *)
Definition h_planck : R := 6.62607015e-34.
Definition hbar : float64 := Fin (h_planck / (2 * PI)).
Definition G : float64 := Fin 6.67430e-11.
Definition c : float64 := Fin 299792458.
Definition pi_classical : float64 := Fin PI.

(** Physical Constants *)
Definition PHI : float64 :=
  np_divide (np_add (Fin 1) (np_sqrt (Fin 5))) (Fin 2).
Definition PLANCK_LENGTH : float64 :=
  np_sqrt (np_divide (np_multiply hbar G) (np_power c (np_int 3))).

(** [def calculate_nmax(s0, lambda_seg=1.0)] *)
Definition calculate_nmax (s0 lambda_seg : float64) : float64 :=
  let N_max := np_divide (np_log (np_divide s0 PLANCK_LENGTH)) (np_log PHI) in
  N_max.

(** [def pi_eff(N, R0=1.0, lambda_seg=1.0)] *)
Definition pi_eff (N R0 lambda_seg : float64) : float64 :=
  let s_phi := np_multiply R0 (np_power PHI (np_negative N)) in
  let R_N := np_multiply R0 (np_exp (np_multiply lambda_seg N)) in
  let C_N := np_multiply N s_phi in
  let pi_eff_value := np_divide C_N (np_multiply (Fin 2) R_N) in
  pi_eff_value.

(** The default values of the keyword parameters. *)
Definition R0_default : float64 := Fin 1.
Definition lambda_seg_default : float64 := Fin 1.

(** [s0_answer_42 = PLANCK_LENGTH * PHI**42] and
    [N_max_42 = calculate_nmax(s0_answer_42)] *)
Definition s0_answer_42 : float64 :=
  np_multiply PLANCK_LENGTH (np_power PHI (np_int 42)).
Definition N_max_42 : float64 := calculate_nmax s0_answer_42 lambda_seg_default.

(** *** Convergence of pi_eff *)

(** What the two branches after the scan print. *)
Inductive report : Type :=
| ConvergenceReached (N_convergence : Z) (pi_eff_at : float64) (difference : float64)
| ConvergenceWarning (last_N : Z).

Section Scan.

Variable N_range : list Z.
Variable pi_eff_values : list float64.
Variable epsilon : float64.

(** [pi_diff = np.abs(np.diff(pi_eff_values))] *)
Definition pi_diff : list float64 := map np_abs (np_diff pi_eff_values).

(** [convergence_index = np.where(pi_diff < epsilon)[0]] *)
Definition convergence_index : list nat :=
  np_where (map (fun d => np_less d epsilon) pi_diff).

(** The [if len(convergence_index) > 0: ... else: ...] statement, with the
    values its f-strings evaluate. *)
Definition convergence_report : outcome report :=
  match convergence_index with
  | i0 :: _ =>
      N_convergence <- py_getitem N_range (Z.of_nat i0) ;;
      v <- py_getitem pi_eff_values (Z.of_nat i0) ;;
      Returns (ConvergenceReached N_convergence v
                 (np_abs (np_subtract v pi_classical)))
  | [] =>
      last_N <- py_getitem N_range (-1) ;;
      Returns (ConvergenceWarning last_N)
  end.

End Scan.

(** The run of the script: [N_range = np.arange(1, 100, 1)],
    [pi_eff_values = np.array([pi_eff(N) for N in N_range])],
    [epsilon = 1e-10]. *)
Definition N_range : list Z := np_arange 1 100.
Definition pi_eff_values : list float64 :=
  map (fun N => pi_eff (np_int N) R0_default lambda_seg_default) N_range.
Definition epsilon : float64 := Fin 1e-10.
Definition script_convergence_index : list nat :=
  convergence_index pi_eff_values epsilon.
Definition script_convergence_report : outcome report :=
  convergence_report N_range pi_eff_values epsilon.

(** [pi_diff_classical = np.abs(pi_eff_values - pi_classical)], one entry. *)
Definition pi_diff_classical (N : Z) : float64 :=
  np_abs (np_subtract (pi_eff (np_int N) R0_default lambda_seg_default) pi_classical).

(** ** The specification's words *)

Module Spec.

(** The golden ratio and the minimum length, as real numbers. *)
Definition phi : R := (1 + sqrt 5) / 2.
Definition minimum_length : R :=
  sqrt (h_planck / (2 * PI) * 6.67430e-11 / 299792458 ^ 3).

(** 4.1: [N = ln(s0 / minimum_length) / ln(phi)] *)
Definition scale_to_segments (s0 : float64) : float64 :=
  np_divide (np_log (np_divide s0 (Fin minimum_length))) (np_log (Fin phi)).

(** 4.2 *)
Definition segment_length (N R0 : float64) : float64 :=
  np_multiply R0 (np_power (Fin phi) (np_negative N)).
Definition radius_N (N R0 lambda : float64) : float64 :=
  np_multiply R0 (np_exp (np_multiply lambda N)).
Definition circumference_N (N R0 : float64) : float64 :=
  np_multiply N (segment_length N R0).
Definition effective_pi (N R0 lambda : float64) : float64 :=
  np_divide (circumference_N N R0) (np_multiply (Fin 2) (radius_N N R0 lambda)).

(** The value of Effective-pi in the reference parameterization, in the
    reals: [N / (2 (phi e)^N)]. *)
Definition effective_pi_ref (n : nat) : R :=
  INR n / (2 * (phi * exp 1) ^ n).

(** 4.3: [i] is a convergence point of the samples [v] for [eps]. *)
Definition below (v : list float64) (eps : float64) (i : nat) : Prop :=
  exists a b, nth_error v i = Some a /\ nth_error v (S i) = Some b /\
              np_less (np_abs (np_subtract b a)) eps = true.

Definition first_below (v : list float64) (eps : float64) (i : nat) : Prop :=
  below v eps i /\ forall j, (j < i)%nat -> ~ below v eps j.

(** 8: the scale [minimum_length * phi^k], computed as the script computes
    [s0_answer_42], and the test "equal within a tolerance". *)
Definition scale_at (k : Z) : float64 :=
  np_multiply PLANCK_LENGTH (np_power PHI (np_int k)).
Definition within (x y tol : float64) : bool :=
  np_less_equal (np_abs (np_subtract x y)) tol.
Definition tolerance : float64 := Fin 1e-9.

End Spec.

(** ** The initial scales of the script *)

(** [s0_schwarzschild = 2 * G * 1.989e30 / c**2],
    [s0_compton = hbar / (9.109e-31 * c)], [s0_classical = 1.0] and
    [s0_typical = np.sqrt(s0_schwarzschild * s0_compton)].  The first three
    are Python float expressions; on these operands Python's arithmetic and
    the float64 operations agree. *)
Definition s0_schwarzschild : float64 :=
  np_divide (np_multiply (np_multiply (np_int 2) G) (Fin 1.989e30))
            (np_power c (np_int 2)).
Definition s0_compton : float64 :=
  np_divide hbar (np_multiply (Fin 9.109e-31) c).
Definition s0_classical : float64 := Fin 1.
Definition s0_typical : float64 :=
  np_sqrt (np_multiply s0_schwarzschild s0_compton).

Definition N_max_schwarzschild : float64 :=
  calculate_nmax s0_schwarzschild lambda_seg_default.
Definition N_max_compton : float64 :=
  calculate_nmax s0_compton lambda_seg_default.
Definition N_max_classical : float64 :=
  calculate_nmax s0_classical lambda_seg_default.
Definition N_max_typical : float64 :=
  calculate_nmax s0_typical lambda_seg_default.

(** ** Vocabulary of the statements *)

(** [a <= b] as the comparison of numpy evaluates it. *)
Definition fle (a b : float64) : Prop := np_less_equal a b = true.

(** A scale between twice the minimum length and [2^400]: the quotient by the
    minimum length and the segment count stay inside the exponent range. *)
Definition regular_scale (s0 : R) : Prop :=
  2 * Spec.minimum_length <= s0 <= 2 ^ 400.

(** A tolerance below which no difference can lie: NaN, [-inf], zero or a
    negative number. *)
Definition useless_tolerance (eps : float64) : Prop :=
  match eps with
  | Fin e => e <= 0
  | PInf => False
  | NInf | NaN => True
  end.

(** ** The computation with its rounding errors *)

(** Where a statement is a bound on the rounding error of the code, the
    operations are taken with their errors.  A float64 operation whose exact
    result is a normal number (no overflow, no underflow) returns it with a
    small relative error: at most [2^-53] for the IEEE operations and a few
    units in the last place for numpy's [log] and [power]; [2^-45] bounds
    them all.  An exact zero is returned as zero.  [rounded exact result]
    says that [result] is such a return value for the exact value [exact]:
    it holds of every run of the code that neither overflows nor
    underflows. *)
Definition rounding_unit : R := / 2 ^ 45.
Definition min_normal : R := / 2 ^ 1022.
Definition max_float : R := (2 - / 2 ^ 52) * 2 ^ 1023.

Definition normal (x : R) : Prop := min_normal <= Rabs x <= max_float.

Definition rounded (exact result : R) : Prop :=
  (exact = 0 /\ result = 0) \/
  (normal exact /\ Rabs (result - exact) <= rounding_unit * Rabs exact).

Module Rounded.

(** [PHI = (1 + np.sqrt(5)) / 2] returns [P]. *)
Definition PHI (P : R) : Prop :=
  exists s a, rounded (sqrt 5) s /\ rounded (1 + s) a /\ rounded (a / 2) P.

(** [PLANCK_LENGTH = np.sqrt(hbar * G / c**3)] returns [lp], from the floats
    [hb] and [g] nearest to the two constants. *)
Definition PLANCK_LENGTH (lp : R) : Prop :=
  exists hb g hG c3 r,
    rounded (h_planck / (2 * PI)) hb /\ rounded 6.67430e-11 g /\
    rounded (hb * g) hG /\ rounded (299792458 ^ 3) c3 /\
    rounded (hG / c3) r /\ 0 <= r /\ rounded (sqrt r) lp.

(** [calculate_nmax(s0)] returns [N_max], with the constants [P] and [lp]:
    [np.log(s0 / PLANCK_LENGTH) / np.log(PHI)] on a positive quotient. *)
Definition calculate_nmax (P lp s0 N_max : R) : Prop :=
  exists q L D,
    rounded (s0 / lp) q /\ 0 < q /\ rounded (ln q) L /\
    0 < P /\ rounded (ln P) D /\ rounded (L / D) N_max.

(** [PLANCK_LENGTH * PHI**k] returns [s0]. *)
Definition scale_at (P lp : R) (k : Z) (s0 : R) : Prop :=
  exists p, 0 < P /\ rounded (Rpower P (IZR k)) p /\ rounded (lp * p) s0.

(** [s0 * PHI**(-N)] returns [s]: the segment length [s_phi(N)] of the
    docstring of [calculate_nmax], and the first line of [pi_eff]. *)
Definition segment_length (P s0 N s : R) : Prop :=
  exists pw, 0 < P /\ rounded (Rpower P (- N)) pw /\ rounded (s0 * pw) s.

(** [pi_eff(N, R0, lambda_seg)] returns [v], on a non-zero denominator. *)
Definition pi_eff (P N R0 lambda_seg v : R) : Prop :=
  exists s_phi t ex R_N C_N den,
    segment_length P R0 N s_phi /\
    rounded (lambda_seg * N) t /\ rounded (exp t) ex /\ rounded (R0 * ex) R_N /\
    rounded (N * s_phi) C_N /\
    rounded (2 * R_N) den /\ den <> 0 /\ rounded (C_N / den) v.

(** [np.sqrt(a * b)], as the script computes [s0_typical], returns [s]. *)
Definition geometric_mean (a b s : R) : Prop :=
  exists m, rounded (a * b) m /\ 0 <= m /\ rounded (sqrt m) s.

End Rounded.

(** ** Evaluating the numpy operations *)

Lemma Rsgn_pos (x : R) : 0 < x -> Rsgn x = Pos.
Proof.
  intros Hx. unfold Rsgn.
  destruct (total_order_T x 0) as [[Hlt | Heq] | Hgt]; [lra | lra | reflexivity].
Qed.

Lemma Rsgn_neg (x : R) : x < 0 -> Rsgn x = Neg.
Proof.
  intros Hx. unfold Rsgn.
  destruct (total_order_T x 0) as [[Hlt | Heq] | Hgt]; [reflexivity | lra | lra].
Qed.

Lemma Rsgn_zero : Rsgn 0 = Zero.
Proof.
  unfold Rsgn.
  destruct (total_order_T 0 0) as [[Hlt | Heq] | Hgt]; [lra | reflexivity | lra].
Qed.

Lemma Rltb_true (x y : R) : x < y -> Rltb x y = true.
Proof. intros H. unfold Rltb. destruct (Rlt_dec x y); [reflexivity | contradiction]. Qed.

Lemma Rltb_false (x y : R) : y <= x -> Rltb x y = false.
Proof. intros H. unfold Rltb. destruct (Rlt_dec x y); [lra | reflexivity]. Qed.

Lemma Rltb_spec (x y : R) : Rltb x y = true <-> x < y.
Proof.
  unfold Rltb. destruct (Rlt_dec x y); split; intros; try assumption;
    try reflexivity; try discriminate; contradiction.
Qed.

Lemma Rleb_true (x y : R) : x <= y -> Rleb x y = true.
Proof. intros H. unfold Rleb. destruct (Rle_dec x y); [reflexivity | contradiction]. Qed.

Lemma Rleb_false (x y : R) : y < x -> Rleb x y = false.
Proof. intros H. unfold Rleb. destruct (Rle_dec x y); [lra | reflexivity]. Qed.

Lemma Reqb_true (x : R) : Reqb x x = true.
Proof. unfold Reqb. destruct (Req_dec_T x x); [reflexivity | contradiction]. Qed.

Lemma Reqb_false (x y : R) : x <> y -> Reqb x y = false.
Proof. intros H. unfold Reqb. destruct (Req_dec_T x y); [contradiction | reflexivity]. Qed.

Lemma pow2_pos (n : nat) : 0 < 2 ^ n.
Proof. apply pow_lt; lra. Qed.

Lemma pow2_le (m n : nat) : (m <= n)%nat -> 2 ^ m <= 2 ^ n.
Proof. intros H. apply Rle_pow; [lra | exact H]. Qed.

Lemma pow2_lt (m n : nat) : (m < n)%nat -> 2 ^ m < 2 ^ n.
Proof. intros H. apply Rlt_pow; [lra | exact H]. Qed.

(** Inside the exponent range a real result is the float64 result. *)
Lemma float64_of_R_in_range (r : R) :
  underflow_threshold < Rabs r < overflow_threshold -> float64_of_R r = Fin r.
Proof.
  intros [Hlo Hhi]. unfold float64_of_R.
  rewrite Rleb_false by exact Hhi.
  rewrite Rleb_false by exact Hlo. reflexivity.
Qed.

Lemma float64_of_R_pow2 (m n : nat) (r : R) :
  (m <= 1074)%nat -> (n <= 1023)%nat ->
  / 2 ^ m <= Rabs r <= 2 ^ n -> float64_of_R r = Fin r.
Proof.
  intros Hm Hn [Hlo Hhi]. apply float64_of_R_in_range.
  unfold underflow_threshold, overflow_threshold. split.
  - apply Rlt_le_trans with (/ 2 ^ m); [| exact Hlo].
    apply Rinv_lt_contravar.
    + apply Rmult_lt_0_compat; apply pow2_pos.
    + apply pow2_lt. lia.
  - apply Rle_lt_trans with (2 ^ n); [exact Hhi |].
    apply pow2_lt. lia.
Qed.

Lemma float64_of_R_pos (m n : nat) (r : R) :
  (m <= 1074)%nat -> (n <= 1023)%nat ->
  / 2 ^ m <= r <= 2 ^ n -> float64_of_R r = Fin r.
Proof.
  intros Hm Hn [Hlo Hhi]. apply (float64_of_R_pow2 m n); try assumption.
  assert (0 < / 2 ^ m) by (apply Rinv_0_lt_compat, pow2_pos).
  rewrite Rabs_pos_eq by lra. split; assumption.
Qed.

Lemma float64_of_R_0 : float64_of_R 0 = Fin 0.
Proof.
  unfold float64_of_R. rewrite Rabs_R0.
  rewrite Rleb_false by (unfold overflow_threshold; apply pow2_pos).
  rewrite Rleb_true; [reflexivity |].
  unfold underflow_threshold. left. apply Rinv_0_lt_compat, pow2_pos.
Qed.

(** A result at or below [2^-1075] is zero. *)
Lemma float64_of_R_underflow (r : R) :
  0 <= r <= underflow_threshold -> float64_of_R r = Fin 0.
Proof.
  intros [H0 H]. unfold float64_of_R. rewrite Rabs_pos_eq by exact H0.
  assert (Hu : underflow_threshold < 1).
  { unfold underflow_threshold. rewrite <- Rinv_1.
    apply Rinv_lt_contravar; [pose proof (pow2_pos 1075); lra |].
    apply Rlt_pow_R1; [lra | lia]. }
  assert (Ho : 1 <= overflow_threshold).
  { unfold overflow_threshold. apply pow_R1_Rle. lra. }
  rewrite Rleb_false by lra. rewrite Rleb_true by exact H. reflexivity.
Qed.

(** A result at or beyond [2^1024] is an infinity. *)
Lemma float64_of_R_overflow (r : R) :
  overflow_threshold <= r -> float64_of_R r = PInf.
Proof.
  intros H. unfold float64_of_R.
  assert (Hp : 0 < overflow_threshold) by (unfold overflow_threshold; apply pow2_pos).
  rewrite Rabs_pos_eq by lra.
  rewrite Rleb_true by exact H. rewrite Rltb_true by lra. reflexivity.
Qed.

(** ** The constants *)

Lemma sqrt5_bounds : 2.236 < sqrt 5 < 2.2361.
Proof.
  assert (H0 : 0 <= sqrt 5) by apply sqrt_pos.
  assert (H1 : sqrt 5 * sqrt 5 = 5) by (apply sqrt_sqrt; lra).
  nra.
Qed.

Lemma phi_bounds : 1.618 < Spec.phi < 1.6181.
Proof. unfold Spec.phi. pose proof sqrt5_bounds. lra. Qed.

Lemma phi_pos : 0 < Spec.phi.
Proof. pose proof phi_bounds. lra. Qed.

Lemma PHI_value : PHI = Fin Spec.phi.
Proof.
  pose proof sqrt5_bounds as Hs.
  unfold PHI, np_sqrt. rewrite Rsgn_pos by lra.
  rewrite (float64_of_R_pos 0 2) by (try lia; simpl; lra).
  unfold np_add. rewrite (float64_of_R_pos 0 2) by (try lia; simpl; lra).
  unfold np_divide. rewrite Rsgn_pos by lra.
  rewrite (float64_of_R_pos 0 2) by (try lia; simpl; lra).
  reflexivity.
Qed.

Lemma ln_phi_bounds : / 4 < ln Spec.phi < 1.
Proof.
  pose proof phi_bounds as Hp. split.
  - (* phi^4 > 6 > e: ln phi > 1/4 *)
    apply exp_lt_inv. rewrite exp_ln by lra.
    apply Rle_lt_trans with (/ (1 - / 4)); [| lra].
    pose proof (exp_ineq1_le (- / 4)) as He.
    rewrite exp_Ropp in He.
    assert (Hpos : 0 < exp (/ 4)) by apply exp_pos.
    apply Rmult_le_reg_l with (1 - / 4); [lra |].
    rewrite Rinv_r by lra.
    apply Rmult_le_reg_r with (/ exp (/ 4)); [apply Rinv_0_lt_compat; exact Hpos |].
    rewrite Rmult_assoc, Rinv_r by lra. lra.
  - apply exp_lt_inv. rewrite exp_ln by lra.
    pose proof (exp_ineq1_le 1). lra.
Qed.

Lemma PI_bounds : 3 < PI <= 4.
Proof. pose proof PI2_3_2. pose proof PI_4. lra. Qed.

Lemma c_cubed : Rpower 299792458 (IZR 3) = 299792458 ^ 3.
Proof.
  replace (IZR 3) with (INR 3) by (simpl; lra).
  apply Rpower_pow. lra.
Qed.

Lemma minimum_length_radicand :
  / 2 ^ 240 <= h_planck / (2 * PI) * 6.67430e-11 / 299792458 ^ 3 <= 1.
Proof.
  pose proof PI_bounds as [Hlo Hhi]. unfold h_planck.
  assert (Hinv : / 8 <= / (2 * PI) <= / 6).
  { split; apply Rinv_le_contravar; lra. }
  assert (Hc : 0 < 299792458 ^ 3) by lra.
  assert (Hn : 6.62607015e-34 * / 8 * 6.67430e-11
               <= 6.62607015e-34 / (2 * PI) * 6.67430e-11
               <= 6.62607015e-34 * / 6 * 6.67430e-11).
  { unfold Rdiv. split; nra. }
  split.
  - apply Rle_trans with (6.62607015e-34 * / 8 * 6.67430e-11 / 299792458 ^ 3); [lra |].
    unfold Rdiv at 2. unfold Rdiv at 2.
    apply Rmult_le_compat_r; [left; apply Rinv_0_lt_compat; exact Hc | lra].
  - apply Rle_trans with (6.62607015e-34 * / 6 * 6.67430e-11 / 299792458 ^ 3); [| lra].
    unfold Rdiv at 1. unfold Rdiv at 3.
    apply Rmult_le_compat_r; [left; apply Rinv_0_lt_compat; exact Hc | lra].
Qed.

Lemma minimum_length_bounds : / 2 ^ 120 <= Spec.minimum_length <= 1.
Proof.
  pose proof minimum_length_radicand as [Hlo Hhi].
  unfold Spec.minimum_length. split.
  - replace (/ 2 ^ 120) with (sqrt (/ 2 ^ 240)).
    + apply sqrt_le_1_alt. exact Hlo.
    + apply sqrt_lem_1; lra.
  - rewrite <- sqrt_1. apply sqrt_le_1_alt. exact Hhi.
Qed.

Lemma minimum_length_pos : 0 < Spec.minimum_length.
Proof.
  pose proof minimum_length_bounds as [Hlo _].
  assert (0 < / 2 ^ 120) by (apply Rinv_0_lt_compat, pow2_pos). lra.
Qed.

Lemma PLANCK_LENGTH_value : PLANCK_LENGTH = Fin Spec.minimum_length.
Proof.
  pose proof PI_bounds as [Hlo Hhi].
  pose proof minimum_length_radicand as Hrad.
  pose proof minimum_length_bounds as Hlp.
  assert (Hinv : / 8 <= / (2 * PI) <= / 6).
  { split; apply Rinv_le_contravar; lra. }
  unfold PLANCK_LENGTH, hbar, G, c, np_int, np_multiply.
  rewrite (float64_of_R_pos 160 0).
  2: lia. 2: lia.
  2: { unfold h_planck, Rdiv. split; [| simpl; nra].
       apply Rle_trans with (6.62607015e-34 * / 8 * 6.67430e-11); [lra | nra]. }
  unfold np_power. rewrite Reqb_false by lra. rewrite Reqb_false by lra.
  rewrite Rsgn_pos by lra. rewrite c_cubed.
  rewrite (float64_of_R_pos 0 100) by (try lia; lra).
  unfold np_divide. rewrite Rsgn_pos by lra.
  rewrite (float64_of_R_pos 240 0) by (try lia; simpl pow at 2; lra).
  unfold np_sqrt.
  assert (Hpos : 0 < / 2 ^ 240) by (apply Rinv_0_lt_compat, pow2_pos).
  rewrite Rsgn_pos by lra.
  fold Spec.minimum_length.
  rewrite (float64_of_R_pos 120 0) by (try lia; simpl pow at 2; lra).
  reflexivity.
Qed.

(** ** Windows of the exponent range *)

Lemma float64_of_R_window (m n : nat) (x : R) :
  in_window m n x -> (m <= 1074)%nat -> (n <= 1023)%nat -> float64_of_R x = Fin x.
Proof. intros H Hm Hn. apply (float64_of_R_pos m n); assumption. Qed.

Lemma in_window_pos (m n : nat) (x : R) : in_window m n x -> 0 < x.
Proof.
  intros [Hlo _].
  assert (0 < / 2 ^ m) by (apply Rinv_0_lt_compat, pow2_pos). lra.
Qed.

Lemma in_window_weaken (m n m' n' : nat) (x : R) :
  in_window m n x -> (m <= m')%nat -> (n <= n')%nat -> in_window m' n' x.
Proof.
  intros [Hlo Hhi] Hm Hn. split.
  - apply Rle_trans with (/ 2 ^ m); [| exact Hlo].
    apply Rinv_le_contravar; [apply pow2_pos | apply pow2_le; exact Hm].
  - apply Rle_trans with (2 ^ n); [exact Hhi | apply pow2_le; exact Hn].
Qed.

Lemma in_window_mult (m1 n1 m2 n2 : nat) (x y : R) :
  in_window m1 n1 x -> in_window m2 n2 y ->
  in_window (m1 + m2) (n1 + n2) (x * y).
Proof.
  intros Hx Hy.
  pose proof (in_window_pos _ _ _ Hx) as Hx0.
  pose proof (in_window_pos _ _ _ Hy) as Hy0.
  destruct Hx as [Hxl Hxh]. destruct Hy as [Hyl Hyh].
  assert (H1 : 0 < / 2 ^ m1) by (apply Rinv_0_lt_compat, pow2_pos).
  assert (H2 : 0 < / 2 ^ m2) by (apply Rinv_0_lt_compat, pow2_pos).
  split.
  - rewrite pow_add, Rinv_mult.
    apply Rmult_le_compat; lra.
  - rewrite pow_add. apply Rmult_le_compat; lra.
Qed.

Lemma in_window_inv (m n : nat) (x : R) :
  in_window m n x -> in_window n m (/ x).
Proof.
  intros Hx. pose proof (in_window_pos _ _ _ Hx) as Hx0.
  destruct Hx as [Hlo Hhi]. split.
  - apply Rinv_le_contravar; assumption.
  - rewrite <- (Rinv_inv (2 ^ m)).
    apply Rinv_le_contravar; [apply Rinv_0_lt_compat, pow2_pos | exact Hlo].
Qed.

Lemma in_window_div (m1 n1 m2 n2 : nat) (x y : R) :
  in_window m1 n1 x -> in_window m2 n2 y ->
  in_window (m1 + n2) (n1 + m2) (x / y).
Proof.
  intros Hx Hy. unfold Rdiv.
  apply in_window_mult; [exact Hx | apply in_window_inv; exact Hy].
Qed.

Lemma in_window_pow (b : R) (k n : nat) :
  1 <= b <= 2 ^ k -> in_window 0 (k * n) (b ^ n).
Proof.
  intros [Hlo Hhi]. split.
  - simpl. rewrite Rinv_1. apply pow_R1_Rle. exact Hlo.
  - rewrite pow_mult. apply pow_incr. lra.
Qed.

Lemma in_window_INR (n : nat) :
  (1 <= n <= 128)%nat -> in_window 0 7 (INR n).
Proof.
  intros [Hlo Hhi]. split.
  - simpl. rewrite Rinv_1. change 1 with (INR 1). apply le_INR. exact Hlo.
  - replace (2 ^ 7) with (INR 128) by (simpl; lra). apply le_INR. exact Hhi.
Qed.

(** ** [pi_eff] in the reference parameterization *)

Lemma exp_INR (n : nat) : exp (INR n) = exp 1 ^ n.
Proof.
  induction n as [| n IH].
  - simpl. apply exp_0.
  - rewrite S_INR, exp_plus, IH. simpl. ring.
Qed.

Lemma Rpower_phi_opp (n : nat) : Rpower Spec.phi (- INR n) = / Spec.phi ^ n.
Proof. rewrite Rpower_Ropp, Rpower_pow by apply phi_pos. reflexivity. Qed.

Lemma exp1_window : 1 <= exp 1 <= 2 ^ 2.
Proof. pose proof exp_le_3. pose proof (exp_ineq1_le 1). lra. Qed.

Lemma phi_window : 1 <= Spec.phi <= 2 ^ 1.
Proof. pose proof phi_bounds. lra. Qed.

Lemma np_int_of_nat (n : nat) : np_int (Z.of_nat n) = Fin (INR n).
Proof. unfold np_int. rewrite <- INR_IZR_INZ. reflexivity. Qed.

Lemma pi_eff_nat (n : nat) :
  (1 <= n <= 128)%nat ->
  pi_eff (Fin (INR n)) R0_default lambda_seg_default
  = Fin (INR n * / Spec.phi ^ n / (2 * exp 1 ^ n))
  /\ in_window 386 7 (INR n * / Spec.phi ^ n / (2 * exp 1 ^ n)).
Proof.
  intros Hn.
  pose proof (in_window_INR n Hn) as HN.
  pose proof (in_window_pos _ _ _ HN) as HN0.
  pose proof (in_window_pow Spec.phi 1 n phi_window) as HP.
  pose proof (in_window_pow (exp 1) 2 n exp1_window) as HE.
  pose proof (in_window_inv _ _ _ HP) as HIP.
  pose proof (in_window_mult _ _ _ _ _ _ HN HIP) as HC.
  assert (H2 : in_window 0 1 2) by (split; simpl; lra).
  pose proof (in_window_mult _ _ _ _ _ _ H2 HE) as H2E.
  pose proof (in_window_div _ _ _ _ _ _ HC H2E) as HV.
  pose proof phi_bounds as Hphi.
  split.
  - unfold pi_eff, R0_default, lambda_seg_default.
    rewrite PHI_value. unfold np_negative, np_power.
    rewrite Reqb_false by lra. rewrite Reqb_false by lra.
    rewrite Rsgn_pos by apply phi_pos.
    rewrite Rpower_phi_opp.
    rewrite (float64_of_R_window _ _ _ HIP) by lia.
    unfold np_multiply. rewrite !Rmult_1_l.
    rewrite (float64_of_R_window _ _ _ HIP) by lia.
    rewrite (float64_of_R_window _ _ _ HN) by lia.
    unfold np_exp. rewrite exp_INR.
    rewrite (float64_of_R_window _ _ _ HE) by lia.
    rewrite Rmult_1_l.
    rewrite (float64_of_R_window _ _ _ HE) by lia.
    rewrite (float64_of_R_window _ _ _ HC) by lia.
    rewrite (float64_of_R_window _ _ _ H2E) by lia.
    unfold np_divide.
    rewrite Rsgn_pos by (apply (in_window_pos _ _ _ H2E)).
    rewrite (float64_of_R_window _ _ _ HV) by lia.
    reflexivity.
  - apply (in_window_weaken _ _ _ _ _ HV); lia.
Qed.

Lemma effective_pi_ref_eq (n : nat) :
  INR n * / Spec.phi ^ n / (2 * exp 1 ^ n) = Spec.effective_pi_ref n.
Proof.
  unfold Spec.effective_pi_ref. rewrite Rpow_mult_distr.
  assert (Spec.phi ^ n <> 0) by (apply pow_nonzero; pose proof phi_pos; lra).
  assert (exp 1 ^ n <> 0) by (apply pow_nonzero; pose proof (exp_pos 1); lra).
  field. split; assumption.
Qed.

(** The value of [pi_eff(N)] for the integers of the scanned range. *)
Lemma pi_eff_value (n : nat) :
  (1 <= n <= 128)%nat ->
  pi_eff (np_int (Z.of_nat n)) R0_default lambda_seg_default
  = Fin (Spec.effective_pi_ref n).
Proof.
  intros Hn. rewrite np_int_of_nat.
  destruct (pi_eff_nat n Hn) as [Hv _]. rewrite Hv.
  rewrite effective_pi_ref_eq. reflexivity.
Qed.

(** ** The sequence [N / (2 (phi e)^N)] *)

Lemma exp_mult_INR (n : nat) (x : R) : exp (INR n * x) = exp x ^ n.
Proof.
  induction n as [| n IH].
  - simpl. rewrite Rmult_0_l. apply exp_0.
  - rewrite S_INR, Rmult_plus_distr_r, Rmult_1_l, exp_plus, IH. simpl. ring.
Qed.

(** [(1 + 1/64)^64 <= e <= (1 - 1/32)^-32] *)
Lemma exp1_bounds : 2.69 <= exp 1 <= 2.77.
Proof.
  split.
  - replace 1 with (INR 64 * / 64) by (simpl; lra).
    rewrite exp_mult_INR.
    apply Rle_trans with ((1 + / 64) ^ 64); [lra |].
    apply pow_incr. split; [lra | apply exp_ineq1_le].
  - replace 1 with (INR 32 * / 32) by (simpl; lra).
    rewrite exp_mult_INR.
    apply Rle_trans with ((32 / 31) ^ 32); [| lra].
    apply pow_incr. split; [left; apply exp_pos |].
    pose proof (exp_ineq1_le (- / 32)) as He.
    rewrite exp_Ropp in He.
    pose proof (exp_pos (/ 32)) as Hp.
    apply Rmult_le_reg_r with (/ exp (/ 32)); [apply Rinv_0_lt_compat; exact Hp |].
    rewrite Rinv_r by lra.
    apply Rle_trans with (32 / 31 * (1 + - / 32)); [lra |].
    apply Rmult_le_compat_l; lra.
Qed.

Lemma q_bounds : 4.3524 <= Spec.phi * exp 1 <= 4.4822.
Proof. pose proof phi_bounds. pose proof exp1_bounds. nra. Qed.

Lemma q_pow_pos (n : nat) : 0 < (Spec.phi * exp 1) ^ n.
Proof. apply pow_lt. pose proof q_bounds. lra. Qed.

Lemma effective_pi_ref_pos (n : nat) :
  (1 <= n)%nat -> 0 < Spec.effective_pi_ref n.
Proof.
  intros Hn. unfold Spec.effective_pi_ref.
  apply Rdiv_lt_0_compat.
  - apply lt_0_INR. lia.
  - pose proof (q_pow_pos n). lra.
Qed.

(** [v(n+1) = v(n) (n+1) / (n q)] *)
Lemma effective_pi_ref_step (n : nat) :
  (1 <= n)%nat ->
  Spec.effective_pi_ref (S n) * (INR n * (Spec.phi * exp 1))
  = Spec.effective_pi_ref n * INR (S n).
Proof.
  intros Hn. unfold Spec.effective_pi_ref. rewrite S_INR. simpl pow.
  pose proof (q_pow_pos n) as Hq.
  pose proof phi_pos as Hp. pose proof (exp_pos 1) as He.
  field. repeat split; lra.
Qed.

Lemma effective_pi_ref_ratio (n : nat) (r : R) :
  (1 <= n)%nat ->
  Spec.effective_pi_ref (S n) * (INR n * (Spec.phi * exp 1))
  <= r * (INR n * (Spec.phi * exp 1)) ->
  Spec.effective_pi_ref (S n) <= r.
Proof.
  intros Hn H. pose proof q_bounds as Hb.
  assert (HN : 1 <= INR n) by (change 1 with (INR 1); apply le_INR; lia).
  apply Rmult_le_reg_r with (INR n * (Spec.phi * exp 1)); [nra | exact H].
Qed.

(** The samples halve at least: [v(n+1) <= v(n) / 2]. *)
Lemma effective_pi_ref_half (n : nat) :
  (1 <= n)%nat -> Spec.effective_pi_ref (S n) <= Spec.effective_pi_ref n / 2.
Proof.
  intros Hn. apply effective_pi_ref_ratio; [exact Hn |].
  rewrite effective_pi_ref_step by exact Hn.
  pose proof (effective_pi_ref_pos n Hn) as Hv. pose proof q_bounds as Hb.
  assert (HN : 1 <= INR n) by (change 1 with (INR 1); apply le_INR; lia).
  rewrite S_INR.
  assert (Hk : INR n + 1 <= / 2 * (INR n * (Spec.phi * exp 1))) by nra.
  replace (Spec.effective_pi_ref n / 2 * (INR n * (Spec.phi * exp 1)))
    with (Spec.effective_pi_ref n * (/ 2 * (INR n * (Spec.phi * exp 1)))) by lra.
  apply Rmult_le_compat_l; lra.
Qed.

Lemma effective_pi_ref_decreasing (n : nat) :
  (1 <= n)%nat -> Spec.effective_pi_ref (S n) < Spec.effective_pi_ref n.
Proof.
  intros Hn. pose proof (effective_pi_ref_half n Hn).
  pose proof (effective_pi_ref_pos n Hn). lra.
Qed.

Lemma effective_pi_ref_antitone (m n : nat) :
  (1 <= m <= n)%nat -> Spec.effective_pi_ref n <= Spec.effective_pi_ref m.
Proof.
  intros [Hm Hmn]. induction Hmn as [| n Hmn IH].
  - lra.
  - pose proof (effective_pi_ref_decreasing n ltac:(lia)). lra.
Qed.

Lemma effective_pi_ref_1 : Spec.effective_pi_ref 1 < / 8.
Proof.
  unfold Spec.effective_pi_ref. simpl. pose proof q_bounds as Hb.
  rewrite Rmult_1_r. unfold Rdiv. rewrite Rmult_1_l.
  apply Rinv_lt_contravar; nra.
Qed.

Lemma effective_pi_ref_lt_1 (n : nat) :
  (1 <= n)%nat -> 0 < Spec.effective_pi_ref n < / 8.
Proof.
  intros Hn. split; [apply effective_pi_ref_pos; exact Hn |].
  pose proof (effective_pi_ref_antitone 1 n ltac:(lia)).
  pose proof effective_pi_ref_1. lra.
Qed.

(** ** The convergence scan *)

Lemma np_diff_nth (a : list float64) (i : nat) :
  nth_error (np_diff a) i =
  match nth_error a i, nth_error a (S i) with
  | Some x, Some y => Some (np_subtract y x)
  | _, _ => None
  end.
Proof.
  revert i. induction a as [| x t IH]; intros i.
  - destruct i; reflexivity.
  - destruct t as [| y t'].
    + destruct i as [| i]; [reflexivity |].
      simpl. destruct i; reflexivity.
    + destruct i as [| i]; [reflexivity |].
      change (np_diff (x :: y :: t')) with (np_subtract y x :: np_diff (y :: t')).
      change (nth_error (np_subtract y x :: np_diff (y :: t')) (S i))
        with (nth_error (np_diff (y :: t')) i).
      rewrite IH. reflexivity.
Qed.

(** An entry of the mask [pi_diff < epsilon] is set exactly at the
    convergence points. *)
Lemma mask_nth (v : list float64) (eps : float64) (i : nat) :
  nth_error (map (fun d => np_less d eps) (pi_diff v)) i = Some true
  <-> Spec.below v eps i.
Proof.
  unfold pi_diff, Spec.below.
  rewrite nth_error_map, nth_error_map, np_diff_nth.
  destruct (nth_error v i) as [a |], (nth_error v (S i)) as [b |]; simpl; split.
  - intros H. exists a, b. repeat split. congruence.
  - intros (a' & b' & Ha & Hb & Hlt). congruence.
  - discriminate.
  - intros (a' & b' & Ha & Hb & Hlt). discriminate.
  - discriminate.
  - intros (a' & b' & Ha & Hb & Hlt). discriminate.
  - discriminate.
  - intros (a' & b' & Ha & Hb & Hlt). discriminate.
Qed.

Lemma where_from_first (mask : list bool) (i j : nat) :
  nth_error mask j = Some true ->
  (forall k, (k < j)%nat -> nth_error mask k <> Some true) ->
  exists rest, where_from i mask = (i + j)%nat :: rest.
Proof.
  revert i j. induction mask as [| b t IH]; intros i j Hj Hmin.
  - destruct j; discriminate.
  - destruct j as [| j].
    + simpl in Hj. injection Hj as ->. simpl.
      rewrite Nat.add_0_r. eexists. reflexivity.
    + destruct b.
      * exfalso. apply (Hmin 0%nat); [lia | reflexivity].
      * simpl. destruct (IH (S i) j) as [rest Hrest].
        -- exact Hj.
        -- intros k Hk. apply (Hmin (S k)). lia.
        -- exists rest. rewrite Hrest. f_equal. lia.
Qed.

Lemma where_from_none (mask : list bool) (i : nat) :
  (forall k, nth_error mask k <> Some true) -> where_from i mask = [].
Proof.
  revert i. induction mask as [| b t IH]; intros i Hnone; [reflexivity |].
  destruct b.
  - exfalso. apply (Hnone 0%nat). reflexivity.
  - simpl. apply IH. intros k. apply (Hnone (S k)).
Qed.

Lemma where_from_head (mask : list bool) (i k : nat) (rest : list nat) :
  where_from i mask = k :: rest ->
  exists j, k = (i + j)%nat /\ nth_error mask j = Some true /\
            forall j', (j' < j)%nat -> nth_error mask j' <> Some true.
Proof.
  revert i. induction mask as [| b t IH]; intros i H; [discriminate |].
  destruct b; simpl in H.
  - injection H as Hk _. exists 0%nat. repeat split; [lia |].
    intros j' Hj'. lia.
  - destruct (IH (S i) H) as (j & Hk & Hj & Hmin).
    exists (S j). repeat split; [lia | exact Hj |].
    intros [| j'] Hj'; [simpl; discriminate |].
    simpl. apply Hmin. lia.
Qed.

Lemma where_from_nil (mask : list bool) (i : nat) :
  where_from i mask = [] -> forall k, nth_error mask k <> Some true.
Proof.
  revert i. induction mask as [| b t IH]; intros i H k.
  - destruct k; discriminate.
  - destruct b; simpl in H; [discriminate |].
    destruct k as [| k]; [simpl; discriminate |].
    simpl. apply (IH (S i) H).
Qed.

(** The first entry of [convergence_index] is the smallest convergence
    point, and the array is empty exactly when there is none. *)
Lemma convergence_index_first (v : list float64) (eps : float64) (i : nat) :
  Spec.first_below v eps i ->
  exists rest, convergence_index v eps = i :: rest.
Proof.
  intros [Hi Hmin]. unfold convergence_index, np_where.
  apply (where_from_first _ 0 i).
  - apply mask_nth. exact Hi.
  - intros k Hk Hmask. apply (Hmin k Hk). apply mask_nth. exact Hmask.
Qed.

Lemma convergence_index_head (v : list float64) (eps : float64) (i : nat)
      (rest : list nat) :
  convergence_index v eps = i :: rest -> Spec.first_below v eps i.
Proof.
  unfold convergence_index, np_where. intros H.
  destruct (where_from_head _ _ _ _ H) as (j & Hk & Hj & Hmin).
  simpl in Hk. subst j. split.
  - apply mask_nth. exact Hj.
  - intros k Hk Hb. apply (Hmin k Hk). apply mask_nth. exact Hb.
Qed.

Lemma convergence_index_none (v : list float64) (eps : float64) :
  (forall i, ~ Spec.below v eps i) <-> convergence_index v eps = [].
Proof.
  unfold convergence_index, np_where. split.
  - intros Hnone. apply where_from_none.
    intros k Hk. apply (Hnone k). apply mask_nth. exact Hk.
  - intros H i Hb. apply (where_from_nil _ _ H i). apply mask_nth. exact Hb.
Qed.

Lemma py_getitem_nth {A : Type} (a : list A) (i : nat) (x : A) :
  nth_error a i = Some x -> py_getitem a (Z.of_nat i) = Returns x.
Proof.
  intros H. unfold py_getitem.
  assert (Hlt : (i < length a)%nat) by (apply nth_error_Some; congruence).
  replace (Z.of_nat i <? 0)%Z with false by (symmetry; apply Z.ltb_ge; lia).
  replace (0 <=? Z.of_nat i)%Z with true by (symmetry; apply Z.leb_le; lia).
  replace (Z.of_nat i <? Z.of_nat (length a))%Z with true
    by (symmetry; apply Z.ltb_lt; lia).
  simpl. rewrite Nat2Z.id, H. reflexivity.
Qed.

Lemma py_getitem_last {A : Type} (front : list A) (x : A) :
  py_getitem (front ++ [x]) (-1) = Returns x.
Proof.
  unfold py_getitem. rewrite length_app. simpl length.
  change (-1 <? 0)%Z with true. cbv iota.
  replace (0 <=? -1 + Z.of_nat (length front + 1))%Z with true
    by (symmetry; apply Z.leb_le; lia).
  replace (-1 + Z.of_nat (length front + 1) <? Z.of_nat (length front + 1))%Z
    with true by (symmetry; apply Z.ltb_lt; lia).
  simpl andb. cbv iota.
  replace (Z.to_nat (-1 + Z.of_nat (length front + 1))) with (length front) by lia.
  rewrite nth_error_app2 by lia. rewrite Nat.sub_diag. reflexivity.
Qed.

(** The report of the [if] branch. *)
Lemma convergence_report_reached (Ns : list Z) (v : list float64)
      (eps : float64) (i : nat) :
  length Ns = length v ->
  Spec.first_below v eps i ->
  exists N a, nth_error Ns i = Some N /\ nth_error v i = Some a /\
    convergence_report Ns v eps
    = Returns (ConvergenceReached N a (np_abs (np_subtract a pi_classical))).
Proof.
  intros Hlen Hfirst.
  destruct (convergence_index_first v eps i Hfirst) as [rest Hidx].
  destruct Hfirst as [(a & b & Ha & Hb & Hlt) _].
  assert (Hi : (i < length Ns)%nat).
  { rewrite Hlen. apply nth_error_Some. congruence. }
  destruct (nth_error Ns i) as [N |] eqn:HN.
  2: { apply nth_error_None in HN. lia. }
  exists N, a. repeat split; [exact Ha |].
  unfold convergence_report. rewrite Hidx.
  rewrite (py_getitem_nth Ns i N HN). simpl bind.
  rewrite (py_getitem_nth v i a Ha). reflexivity.
Qed.

(** The report of the [else] branch, on a range with a last element. *)
Lemma convergence_report_warning (front : list Z) (last_N : Z)
      (v : list float64) (eps : float64) :
  (forall i, ~ Spec.below v eps i) ->
  convergence_report (front ++ [last_N]) v eps
  = Returns (ConvergenceWarning last_N).
Proof.
  intros Hnone. apply convergence_index_none in Hnone.
  unfold convergence_report. rewrite Hnone.
  rewrite py_getitem_last. reflexivity.
Qed.

(** The [else] branch on the empty range: [N_range[-1]] raises. *)
Lemma convergence_report_empty (eps : float64) :
  convergence_report [] [] eps = Raises IndexError.
Proof. reflexivity. Qed.

(** ** The scan of the script *)

Lemma effective_pi_ref_window (n : nat) :
  (1 <= n <= 128)%nat -> in_window 386 7 (Spec.effective_pi_ref n).
Proof.
  intros Hn. destruct (pi_eff_nat n Hn) as [_ Hw].
  rewrite effective_pi_ref_eq in Hw. exact Hw.
Qed.

Lemma N_range_nth (i : nat) :
  (i < 99)%nat -> nth_error N_range i = Some (Z.of_nat (S i)).
Proof.
  intros Hi. unfold N_range, np_arange.
  rewrite nth_error_map.
  replace (Z.to_nat (100 - 1)) with 99%nat by reflexivity.
  rewrite nth_error_seq.
  replace (i <? 99)%nat with true by (symmetry; apply Nat.ltb_lt; exact Hi).
  unfold option_map. f_equal. rewrite Nat2Z.inj_succ. simpl Nat.add. lia.
Qed.

Lemma N_range_length : length N_range = 99%nat.
Proof. reflexivity. Qed.

Lemma pi_eff_values_length : length pi_eff_values = 99%nat.
Proof. unfold pi_eff_values. rewrite length_map. reflexivity. Qed.

Lemma pi_eff_values_nth (i : nat) :
  (i < 99)%nat ->
  nth_error pi_eff_values i = Some (Fin (Spec.effective_pi_ref (S i))).
Proof.
  intros Hi. unfold pi_eff_values.
  rewrite nth_error_map, (N_range_nth i Hi). unfold option_map.
  rewrite pi_eff_value by lia. reflexivity.
Qed.

(** A successive difference of the samples: the exact real difference. *)
Lemma successive_difference (n : nat) :
  (1 <= n)%nat -> (S n <= 128)%nat ->
  np_abs (np_subtract (Fin (Spec.effective_pi_ref (S n)))
                      (Fin (Spec.effective_pi_ref n)))
  = Fin (Spec.effective_pi_ref n - Spec.effective_pi_ref (S n)).
Proof.
  intros H1 H2.
  pose proof (effective_pi_ref_half n H1) as Hhalf.
  pose proof (effective_pi_ref_window n ltac:(lia)) as [Hlo Hhi].
  pose proof (effective_pi_ref_pos (S n) ltac:(lia)) as Hpos.
  unfold np_subtract, np_negative, np_add.
  assert (Hneg : Spec.effective_pi_ref (S n) + - Spec.effective_pi_ref n < 0) by lra.
  rewrite (float64_of_R_pow2 387 7).
  - unfold np_abs. f_equal. rewrite Rabs_left by exact Hneg. lra.
  - lia.
  - lia.
  - rewrite Rabs_left by exact Hneg. split; [| lra].
    apply Rle_trans with (/ 2 ^ 386 / 2); [| lra].
    change (2 ^ 387) with (2 * 2 ^ 386).
    rewrite Rinv_mult. lra.
Qed.

Lemma below_script (i : nat) :
  (S i < 99)%nat ->
  Spec.below pi_eff_values epsilon i <->
  Spec.effective_pi_ref (S i) - Spec.effective_pi_ref (S (S i)) < 1e-10.
Proof.
  intros Hi. unfold Spec.below.
  rewrite (pi_eff_values_nth i) by lia.
  rewrite (pi_eff_values_nth (S i)) by lia.
  split.
  - intros (a & b & Ha & Hb & Hlt).
    injection Ha as <-. injection Hb as <-.
    rewrite successive_difference in Hlt by lia.
    unfold epsilon, np_less in Hlt. apply Rltb_spec. exact Hlt.
  - intros Hlt. eexists. eexists. repeat split.
    rewrite successive_difference by lia.
    unfold epsilon, np_less. apply Rltb_spec. exact Hlt.
Qed.

Lemma q_pow_16 : (Spec.phi * exp 1) ^ 16 <= 2.66e10.
Proof.
  pose proof q_bounds as [Hlo Hhi].
  apply Rle_trans with (4.4822 ^ 16); [| lra].
  apply pow_incr. lra.
Qed.

Lemma q_pow_17 : 7.2e10 <= (Spec.phi * exp 1) ^ 17.
Proof.
  pose proof q_bounds as [Hlo Hhi].
  apply Rle_trans with (4.3524 ^ 17); [lra |].
  apply pow_incr. lra.
Qed.

Lemma effective_pi_ref_16 : 3e-10 <= Spec.effective_pi_ref 16.
Proof.
  unfold Spec.effective_pi_ref.
  pose proof q_pow_16 as H16. pose proof (q_pow_pos 16) as Hpos.
  replace (INR 16) with 16 by (simpl; lra).
  assert (E : 16 / (2 * (Spec.phi * exp 1) ^ 16) * (2 * (Spec.phi * exp 1) ^ 16) = 16)
    by (pose proof phi_pos; pose proof (exp_pos 1); field; repeat split; lra).
  apply Rmult_le_reg_r with (2 * (Spec.phi * exp 1) ^ 16); [lra |].
  rewrite E. lra.
Qed.

Lemma effective_pi_ref_17 : Spec.effective_pi_ref 17 <= 1.181e-10.
Proof.
  unfold Spec.effective_pi_ref.
  pose proof q_pow_17 as H17. pose proof (q_pow_pos 17) as Hpos.
  replace (INR 17) with 17 by (simpl; lra).
  assert (E : 17 / (2 * (Spec.phi * exp 1) ^ 17) * (2 * (Spec.phi * exp 1) ^ 17) = 17)
    by (pose proof phi_pos; pose proof (exp_pos 1); field; repeat split; lra).
  apply Rmult_le_reg_r with (2 * (Spec.phi * exp 1) ^ 17); [lra |].
  rewrite E. lra.
Qed.

(** Before N = 17 the successive differences are at least [epsilon]. *)
Lemma difference_large (n : nat) :
  (1 <= n <= 16)%nat ->
  1e-10 <= Spec.effective_pi_ref n - Spec.effective_pi_ref (S n).
Proof.
  intros Hn.
  pose proof (effective_pi_ref_half n ltac:(lia)) as Hhalf.
  pose proof (effective_pi_ref_antitone n 16 ltac:(lia)) as Hanti.
  pose proof effective_pi_ref_16. lra.
Qed.

(** At N = 17 the successive difference is below [epsilon]. *)
Lemma difference_small :
  Spec.effective_pi_ref 17 - Spec.effective_pi_ref 18 < 1e-10.
Proof.
  pose proof (effective_pi_ref_step 17 ltac:(lia)) as Hstep.
  pose proof effective_pi_ref_17 as H17.
  pose proof (effective_pi_ref_pos 17 ltac:(lia)) as Hpos17.
  pose proof (effective_pi_ref_pos 18 ltac:(lia)) as Hpos18.
  pose proof q_bounds as [Hlo Hhi].
  replace (INR 17) with 17 in Hstep by (simpl; lra).
  replace (INR 18) with 18 in Hstep by (simpl; lra).
  assert (H : Spec.effective_pi_ref 17 * 18
              <= Spec.effective_pi_ref 18 * (17 * 4.4822)).
  { rewrite <- Hstep. apply Rmult_le_compat_l; lra. }
  lra.
Qed.

Lemma script_first_below : Spec.first_below pi_eff_values epsilon 16.
Proof.
  split.
  - apply below_script; [lia | exact difference_small].
  - intros j Hj Hb. apply below_script in Hb; [| lia].
    pose proof (difference_large (S j) ltac:(lia)). lra.
Qed.

(** ** [calculate_nmax] *)

Lemma np_log_PHI : np_log PHI = Fin (ln Spec.phi).
Proof.
  rewrite PHI_value. unfold np_log. rewrite Rsgn_pos by apply phi_pos.
  pose proof ln_phi_bounds as [Hlo Hhi].
  apply (float64_of_R_pos 2 0); try lia. simpl. lra.
Qed.

(** [ln x < x] and [- ln x < 1 / x] *)
Lemma ln_lt_id (x : R) : 0 < x -> ln x < x.
Proof.
  intros Hx. pose proof (exp_ineq1_le (ln x)) as H.
  rewrite exp_ln in H by exact Hx. lra.
Qed.

Lemma ln_window (m n : nat) (x : R) :
  in_window m n x -> - 2 ^ m < ln x < 2 ^ n.
Proof.
  intros Hw. pose proof (in_window_pos _ _ _ Hw) as Hx.
  pose proof (in_window_inv _ _ _ Hw) as Hwi.
  destruct Hw as [_ Hhi]. destruct Hwi as [_ Hihi].
  split.
  - pose proof (ln_lt_id (/ x) ltac:(apply Rinv_0_lt_compat; exact Hx)) as H.
    rewrite ln_Rinv in H by exact Hx. lra.
  - pose proof (ln_lt_id x Hx). lra.
Qed.

(** Inside the exponent range, [calculate_nmax] is the real number
    [ln(s0 / minimum_length) / ln(phi)]. *)
Lemma calculate_nmax_real (s0 : R) (lambda_seg : float64) :
  in_window 1020 1020 (s0 / Spec.minimum_length) ->
  let N := ln (s0 / Spec.minimum_length) / ln Spec.phi in
  N = 0 \/ / 2 ^ 1000 <= Rabs N ->
  calculate_nmax (Fin s0) lambda_seg = Fin N.
Proof.
  intros Hw N HN.
  pose proof minimum_length_pos as Hlp.
  pose proof ln_phi_bounds as [Hlo Hhi].
  pose proof (ln_window _ _ _ Hw) as [HLlo HLhi].
  set (L := ln (s0 / Spec.minimum_length)) in *.
  assert (HL : L = N * ln Spec.phi) by (unfold N; field; lra).
  assert (Habs : Rabs L = Rabs N * ln Spec.phi).
  { rewrite HL, Rabs_mult, (Rabs_pos_eq (ln Spec.phi)) by lra. reflexivity. }
  assert (HabsN : Rabs N = Rabs L * / ln Spec.phi).
  { rewrite Habs. field. lra. }
  assert (Hinv : 1 < / ln Spec.phi < 4).
  { split.
    - rewrite <- Rinv_1. apply Rinv_lt_contravar; lra.
    - replace 4 with (/ / 4) by lra. apply Rinv_lt_contravar; [| lra].
      apply Rmult_lt_0_compat; lra. }
  assert (HLabs : Rabs L < 2 ^ 1020).
  { apply Rabs_def1; lra. }
  assert (Htiny : 0 < / 2 ^ 1000) by (apply Rinv_0_lt_compat, pow2_pos).
  unfold calculate_nmax. rewrite PLANCK_LENGTH_value, np_log_PHI.
  unfold np_divide at 2. rewrite Rsgn_pos by exact Hlp.
  rewrite (float64_of_R_window _ _ _ Hw) by lia.
  unfold np_log. rewrite Rsgn_pos by (apply (in_window_pos _ _ _ Hw)).
  fold L.
  destruct HN as [HN0 | HNbig].
  - assert (HL0 : L = 0) by (rewrite HL, HN0; ring).
    rewrite HL0, float64_of_R_0. unfold np_divide.
    rewrite Rsgn_pos by lra.
    replace (0 / ln Spec.phi) with 0 by (unfold Rdiv; ring).
    rewrite float64_of_R_0, HN0. reflexivity.
  - assert (HLbig : / 2 ^ 1002 <= Rabs L).
    { rewrite Habs. change (2 ^ 1002) with (2 * (2 * 2 ^ 1000)).
      rewrite !Rinv_mult.
      assert (0 <= Rabs N) by apply Rabs_pos. nra. }
    rewrite (float64_of_R_pow2 1002 1020) by (try lia; lra).
    unfold np_divide. rewrite Rsgn_pos by lra.
    fold N.
    rewrite (float64_of_R_pow2 1000 1022); try lia; [reflexivity |].
    split; [exact HNbig |].
    rewrite HabsN. change (2 ^ 1022) with (2 * (2 * 2 ^ 1020)).
    assert (0 <= Rabs L) by apply Rabs_pos. nra.
Qed.

(** ** Powers of the golden ratio *)

Lemma phi_pow_10 : Spec.phi ^ 10 <= 2 ^ 7.
Proof.
  pose proof phi_bounds as [Hlo Hhi].
  apply Rle_trans with (1.6181 ^ 10); [| lra].
  apply pow_incr. lra.
Qed.

Lemma phi_pow_window (n : nat) :
  (n <= 1000)%nat -> in_window 0 700 (Spec.phi ^ n).
Proof.
  intros Hn. pose proof phi_bounds as [Hlo Hhi]. split.
  - simpl. rewrite Rinv_1. apply pow_R1_Rle. lra.
  - apply Rle_trans with (Spec.phi ^ 1000).
    + apply Rle_pow; [lra | exact Hn].
    + change 1000%nat with (10 * 100)%nat. rewrite pow_mult.
      change 700%nat with (7 * 100)%nat. rewrite (pow_mult 2 7 100).
      apply pow_incr. split; [left; apply pow_lt; lra | exact phi_pow_10].
Qed.

Lemma Rpower_phi_Z (k : Z) :
  (-1000 <= k <= 1000)%Z -> in_window 700 700 (Rpower Spec.phi (IZR k)).
Proof.
  intros Hk. rewrite <- powerRZ_Rpower by apply phi_pos.
  destruct k as [| p | p].
  - simpl. split; [| apply pow_R1_Rle; lra].
    rewrite <- Rinv_1. apply Rinv_le_contravar; [lra | apply pow_R1_Rle; lra].
  - simpl powerRZ.
    apply (in_window_weaken 0 700); [| lia | lia].
    apply phi_pow_window. lia.
  - simpl powerRZ.
    apply (in_window_weaken 700 0); [| lia | lia].
    apply in_window_inv. apply phi_pow_window. lia.
Qed.

(** [phi^2000] is beyond the exponent range, and so is its inverse. *)
Lemma phi_pow_2000 : 2 ^ 1076 <= Spec.phi ^ 2000.
Proof.
  pose proof phi_bounds as [Hlo Hhi].
  apply Rle_trans with (Spec.phi ^ 1614).
  - change 1614%nat with (3 * 538)%nat. rewrite pow_mult.
    change 1076%nat with (2 * 538)%nat. rewrite (pow_mult 2 2 538).
    apply pow_incr. split; [lra |].
    apply Rle_trans with (1.618 ^ 3); [lra | apply pow_incr; lra].
  - apply Rle_pow; [lra | lia].
Qed.

Lemma phi_pow_2000_overflow : overflow_threshold <= Rpower Spec.phi (IZR 2000).
Proof.
  pose proof phi_bounds as [Hlo Hhi].
  replace (IZR 2000) with (INR 2000) by (rewrite INR_IZR_INZ; reflexivity).
  rewrite Rpower_pow by lra.
  apply Rle_trans with (2 ^ 1076); [| exact phi_pow_2000].
  unfold overflow_threshold. apply pow2_le. lia.
Qed.

Lemma phi_pow_2000_underflow :
  0 <= Rpower Spec.phi (IZR (-2000)) <= underflow_threshold.
Proof.
  pose proof phi_bounds as [Hlo Hhi].
  replace (IZR (-2000)) with (- INR 2000)
    by (rewrite INR_IZR_INZ, <- opp_IZR; reflexivity).
  rewrite Rpower_Ropp, Rpower_pow by lra.
  pose proof phi_pow_2000 as H. pose proof (pow2_pos 1076) as Hp.
  split.
  - left. apply Rinv_0_lt_compat. lra.
  - unfold underflow_threshold.
    apply Rle_trans with (/ 2 ^ 1076).
    + apply Rinv_le_contravar; assumption.
    + apply Rinv_le_contravar; [apply pow2_pos | apply pow2_le; lia].
Qed.

Lemma scale_at_2000 : Spec.scale_at 2000 = PInf.
Proof.
  pose proof phi_bounds as [Hlo Hhi].
  unfold Spec.scale_at. rewrite PLANCK_LENGTH_value, PHI_value.
  unfold np_int, np_power.
  rewrite Reqb_false by lra. rewrite Reqb_false by lra.
  rewrite Rsgn_pos by lra.
  rewrite (float64_of_R_overflow _ phi_pow_2000_overflow).
  unfold np_multiply. rewrite Rsgn_pos by apply minimum_length_pos. reflexivity.
Qed.

Lemma calculate_nmax_PInf (lambda_seg : float64) :
  calculate_nmax PInf lambda_seg = PInf.
Proof.
  unfold calculate_nmax. rewrite PLANCK_LENGTH_value, np_log_PHI.
  unfold np_divide at 2. rewrite Rsgn_pos by apply minimum_length_pos.
  unfold np_log, np_divide.
  pose proof ln_phi_bounds as [Hlo Hhi]. rewrite Rsgn_pos by lra. reflexivity.
Qed.

Lemma scale_at_minus_2000 : Spec.scale_at (-2000) = Fin 0.
Proof.
  pose proof phi_bounds as [Hlo Hhi].
  unfold Spec.scale_at. rewrite PLANCK_LENGTH_value, PHI_value.
  unfold np_int, np_power.
  rewrite Reqb_false by lra. rewrite Reqb_false by lra.
  rewrite Rsgn_pos by lra.
  rewrite (float64_of_R_underflow _ phi_pow_2000_underflow).
  unfold np_multiply. rewrite Rmult_0_r. apply float64_of_R_0.
Qed.

Lemma calculate_nmax_zero (lambda_seg : float64) :
  calculate_nmax (Fin 0) lambda_seg = NInf.
Proof.
  unfold calculate_nmax. rewrite PLANCK_LENGTH_value, np_log_PHI.
  unfold np_divide at 2. rewrite Rsgn_pos by apply minimum_length_pos.
  replace (0 / Spec.minimum_length) with 0 by (unfold Rdiv; ring).
  rewrite float64_of_R_0. unfold np_log. rewrite Rsgn_zero.
  unfold np_divide. pose proof ln_phi_bounds as [Hlo Hhi].
  rewrite Rsgn_pos by lra. reflexivity.
Qed.

(** A negative scale: the quotient is negative, zero by underflow or
    [-inf] by overflow, and the logarithm of each is NaN or [-inf]. *)
Lemma calculate_nmax_negative (s0 : R) (lambda_seg : float64) :
  s0 < 0 ->
  calculate_nmax (Fin s0) lambda_seg = NaN \/
  calculate_nmax (Fin s0) lambda_seg = NInf.
Proof.
  intros Hs. pose proof minimum_length_pos as Hlp.
  pose proof ln_phi_bounds as [Hlo Hhi].
  assert (Hq : s0 / Spec.minimum_length < 0).
  { assert (Hi : 0 < / Spec.minimum_length) by (apply Rinv_0_lt_compat; exact Hlp).
    unfold Rdiv. nra. }
  assert (Hcases : np_divide (Fin s0) (Fin Spec.minimum_length) = NInf \/
                   np_divide (Fin s0) (Fin Spec.minimum_length) = Fin 0 \/
                   exists r, r < 0 /\
                     np_divide (Fin s0) (Fin Spec.minimum_length) = Fin r).
  { unfold np_divide. rewrite Rsgn_pos by exact Hlp. unfold float64_of_R.
    destruct (Rleb overflow_threshold (Rabs (s0 / Spec.minimum_length))).
    - rewrite Rltb_false by lra. left. reflexivity.
    - destruct (Rleb (Rabs (s0 / Spec.minimum_length)) underflow_threshold).
      + right. left. reflexivity.
      + right. right. exists (s0 / Spec.minimum_length). split; [exact Hq | reflexivity]. }
  unfold calculate_nmax. rewrite PLANCK_LENGTH_value, np_log_PHI.
  destruct Hcases as [-> | [-> | (r & Hr & ->)]].
  - left. reflexivity.
  - right. unfold np_log. rewrite Rsgn_zero. unfold np_divide.
    rewrite Rsgn_pos by lra. reflexivity.
  - left. unfold np_log. rewrite Rsgn_neg by exact Hr. reflexivity.
Qed.

Lemma calculate_nmax_minus_one (lambda_seg : float64) :
  calculate_nmax (Fin (-1)) lambda_seg = NaN.
Proof.
  pose proof minimum_length_pos as Hlp.
  pose proof minimum_length_bounds as [Hlo Hhi].
  assert (Hw : in_window 0 120 (/ Spec.minimum_length)).
  { apply in_window_inv. split; [exact Hlo | simpl; lra]. }
  pose proof (in_window_pos _ _ _ Hw) as Hpos.
  unfold calculate_nmax. rewrite PLANCK_LENGTH_value.
  unfold np_divide at 2. rewrite Rsgn_pos by exact Hlp.
  replace (-1 / Spec.minimum_length) with (- / Spec.minimum_length)
    by (unfold Rdiv; ring).
  rewrite (float64_of_R_pow2 0 120); try lia.
  - unfold np_log. rewrite Rsgn_neg by lra. reflexivity.
  - rewrite Rabs_Ropp, Rabs_pos_eq by lra. exact Hw.
Qed.

(** ** The error with respect to [pi_classical] *)

Lemma pi_diff_classical_value (n : nat) :
  (1 <= n <= 128)%nat ->
  pi_diff_classical (Z.of_nat n) = Fin (PI - Spec.effective_pi_ref n).
Proof.
  intros Hn. unfold pi_diff_classical, pi_classical.
  rewrite pi_eff_value by exact Hn.
  pose proof (effective_pi_ref_lt_1 n ltac:(lia)) as [Hpos Hlt].
  pose proof PI_bounds as [Hlo Hhi].
  unfold np_subtract, np_negative, np_add.
  assert (Hneg : Spec.effective_pi_ref n + - PI < 0) by lra.
  rewrite (float64_of_R_pow2 0 2); try lia.
  - unfold np_abs. rewrite Rabs_left by exact Hneg. f_equal. lra.
  - rewrite Rabs_left by exact Hneg. simpl. lra.
Qed.

(** ** Rounding errors *)

Lemma Rabs_bound (a b : R) : Rabs a <= b <-> - b <= a <= b.
Proof. unfold Rabs. destruct (Rcase_abs a); split; intros; lra. Qed.

Lemma rounding_unit_bounds : 0 < rounding_unit <= 1e-13.
Proof. unfold rounding_unit. lra. Qed.

Lemma rounded_abs (t r : R) :
  rounded t r -> Rabs (r - t) <= rounding_unit * Rabs t.
Proof.
  intros [[-> ->] | [_ H]]; [| exact H].
  replace (0 - 0) with 0 by ring. rewrite Rabs_R0. lra.
Qed.

Lemma rounded_pos (t r : R) :
  rounded t r -> 0 < t ->
  t * (1 - rounding_unit) <= r <= t * (1 + rounding_unit) /\ 0 < r /\ normal t.
Proof.
  intros [[-> _] | [Hn H]] Ht; [lra |].
  pose proof rounding_unit_bounds as [Hu0 Hu1].
  rewrite (Rabs_pos_eq t) in H by lra.
  apply Rabs_bound in H.
  split; [split; nra | split; [nra | exact Hn]].
Qed.

Lemma rounded_exact (t : R) : normal t -> rounded t t.
Proof.
  intros Hn. right. split; [exact Hn |].
  replace (t - t) with 0 by ring. rewrite Rabs_R0.
  pose proof rounding_unit_bounds. pose proof (Rabs_pos t). nra.
Qed.

Lemma ln_monotone (x y : R) : 0 < x -> x <= y -> ln x <= ln y.
Proof.
  intros Hx [Hlt | ->]; [left; apply ln_increasing; assumption | right; reflexivity].
Qed.

Lemma ln_upper (y : R) : 0 < y -> ln y <= y - 1.
Proof.
  intros Hy. pose proof (exp_ineq1_le (ln y)) as H.
  rewrite exp_ln in H by exact Hy. lra.
Qed.

Lemma ln_lower (y : R) : 0 < y -> 1 - / y <= ln y.
Proof.
  intros Hy. pose proof (ln_upper (/ y) ltac:(apply Rinv_0_lt_compat; exact Hy)) as H.
  rewrite ln_Rinv in H by exact Hy. lra.
Qed.

(** The logarithm of a value between [x a] and [x b]. *)
Lemma ln_between (x q a b : R) :
  0 < x -> 0 < a -> x * a <= q <= x * b ->
  1 - / a <= ln q - ln x <= b - 1.
Proof.
  intros Hx Ha [Hlo Hhi].
  assert (Hxa : 0 < x * a) by (apply Rmult_lt_0_compat; assumption).
  assert (Hq : 0 < q) by lra.
  assert (Hb : 0 < b) by nra.
  split.
  - apply Rle_trans with (ln a); [apply ln_lower; exact Ha |].
    replace (ln a) with (ln (x * a) - ln x) by (rewrite ln_mult by assumption; ring).
    pose proof (ln_monotone (x * a) q Hxa Hlo). lra.
  - apply Rle_trans with (ln b); [| apply ln_upper; exact Hb].
    replace (ln b) with (ln (x * b) - ln x) by (rewrite ln_mult by assumption; ring).
    pose proof (ln_monotone q (x * b) Hq Hhi). lra.
Qed.

Lemma inv_one_minus (e : R) : 0 <= e <= / 2 -> 1 - / (1 - e) >= - (2 * e).
Proof.
  intros [H0 H1].
  assert (Hpos : 0 < 1 - e) by lra.
  assert (Hi : / (1 - e) <= 1 + 2 * e).
  { apply Rmult_le_reg_l with (1 - e); [exact Hpos |].
    rewrite Rinv_r by lra. nra. }
  lra.
Qed.

(** The constants. *)

Lemma PHI_rounded_bounds (P : R) : Rounded.PHI P -> 1.617 <= P <= 1.619.
Proof.
  intros (s & a & Hs & Ha & HP).
  pose proof rounding_unit_bounds as [Hu0 Hu1].
  pose proof sqrt5_bounds as [Hl Hh].
  destruct (rounded_pos _ _ Hs ltac:(lra)) as ([Hs1 Hs2] & Hs0 & _).
  assert (Hsb : 2.235 <= s <= 2.237) by (split; nra).
  destruct (rounded_pos _ _ Ha ltac:(lra)) as ([Ha1 Ha2] & Ha0 & _).
  assert (Hab : 3.2349 <= a <= 3.2371) by (split; nra).
  destruct (rounded_pos _ _ HP ltac:(lra)) as ([HP1 HP2] & HP0 & _).
  split; nra.
Qed.

Lemma exp_047 : exp 0.47 <= 1.617.
Proof.
  replace 0.47 with (INR 64 * (0.47 / 64)) by (simpl; lra).
  rewrite exp_mult_INR.
  apply Rle_trans with ((/ (1 - 0.47 / 64)) ^ 64); [| lra].
  apply pow_incr. split; [left; apply exp_pos |].
  pose proof (exp_ineq1_le (- (0.47 / 64))) as He.
  rewrite exp_Ropp in He.
  pose proof (exp_pos (0.47 / 64)) as Hp.
  rewrite <- (Rinv_inv (exp (0.47 / 64))).
  apply Rinv_le_contravar; lra.
Qed.

Lemma ln_P_bounds (P : R) : 1.617 <= P <= 1.619 -> 0.47 <= ln P <= 0.62.
Proof.
  intros [Hlo Hhi]. split.
  - rewrite <- (ln_exp 0.47). apply ln_monotone; [apply exp_pos |].
    pose proof exp_047. lra.
  - pose proof (ln_upper P ltac:(lra)). lra.
Qed.

Lemma PLANCK_LENGTH_rounded_pos (lp : R) : Rounded.PLANCK_LENGTH lp -> 0 < lp.
Proof.
  intros (hb & g & hG & c3 & r & Hhb & Hg & HhG & Hc3 & Hr & Hr0 & Hlp).
  pose proof PI_bounds as [Hpl Hph].
  assert (Hh : 0 < h_planck / (2 * PI)).
  { unfold h_planck. apply Rdiv_lt_0_compat; lra. }
  destruct (rounded_pos _ _ Hhb Hh) as (_ & Hhb0 & _).
  destruct (rounded_pos _ _ Hg ltac:(lra)) as (_ & Hg0 & _).
  destruct (rounded_pos _ _ HhG ltac:(apply Rmult_lt_0_compat; assumption))
    as (_ & HhG0 & _).
  destruct (rounded_pos _ _ Hc3 ltac:(lra)) as (_ & Hc30 & _).
  destruct (rounded_pos _ _ Hr ltac:(apply Rdiv_lt_0_compat; assumption))
    as (_ & Hr1 & _).
  destruct (rounded_pos _ _ Hlp ltac:(apply sqrt_lt_R0; exact Hr1)) as (_ & H & _).
  exact H.
Qed.

(** The accuracy of [calculate_nmax]. *)

Lemma quotient_bound (W D B : R) :
  0.46 <= D -> - B <= W * D <= B -> - (B / 0.46) <= W <= B / 0.46.
Proof.
  intros HD [Hlo Hhi].
  assert (HB : 0 <= B) by lra.
  destruct (Rle_dec 0 W) as [HW | HW]; split; nra.
Qed.

Lemma calculate_nmax_accuracy (P lp s0 N : R) :
  1.617 <= P <= 1.619 -> 0 < lp -> 0 < s0 ->
  Rounded.calculate_nmax P lp s0 N ->
  Rabs (N - ln (s0 / lp) / ln P)
  <= rounding_unit * (4 * Rabs (ln (s0 / lp) / ln P) + 9).
Proof.
  intros HP Hlp Hs0 (q & L & D & Hq & Hq0 & HL & _ & HD & HN).
  pose proof rounding_unit_bounds as [Hu0 Hu1].
  set (u := rounding_unit) in *.
  pose proof (ln_P_bounds P HP) as [Hd1 Hd2].
  set (d := ln P) in *.
  assert (Hx : 0 < s0 / lp) by (apply Rdiv_lt_0_compat; assumption).
  set (x := s0 / lp) in *.
  set (Nex := ln x / d).
  set (K := Rabs Nex).
  assert (HK0 : 0 <= K) by apply Rabs_pos.
  assert (HKb : - K <= Nex <= K) by (apply Rabs_bound; unfold K; lra).
  assert (HLex : ln x = Nex * d) by (unfold Nex; field; lra).
  assert (HA : Rabs (ln x) = K * d).
  { rewrite HLex, Rabs_mult, (Rabs_pos_eq d) by lra. reflexivity. }
  (* the quotient and its logarithm *)
  destruct (rounded_pos _ _ Hq Hx) as ([Hq1 Hq2] & _ & _).
  fold u in Hq1, Hq2.
  destruct (ln_between x q (1 - u) (1 + u) Hx ltac:(lra) (conj Hq1 Hq2))
    as [He0l He0h].
  pose proof (inv_one_minus u ltac:(lra)) as Hinv.
  set (e0 := ln q - ln x) in *.
  assert (He0 : - (2 * u) <= e0 <= u) by lra.
  (* np.log *)
  pose proof (rounded_abs _ _ HL) as HeL. fold u in HeL.
  assert (Hlnq : Rabs (ln q) <= K * d + 2 * u).
  { replace (ln q) with (ln x + e0) by (unfold e0; ring).
    apply Rle_trans with (Rabs (ln x) + Rabs e0); [apply Rabs_triang |].
    rewrite HA. assert (Rabs e0 <= 2 * u) by (apply Rabs_bound; lra). lra. }
  assert (He1 : - (u * (K * d + 2 * u)) <= L - ln q <= u * (K * d + 2 * u)).
  { apply Rabs_bound. apply Rle_trans with (u * Rabs (ln q)); [exact HeL |].
    apply Rmult_le_compat_l; lra. }
  set (eL := L - Nex * d).
  assert (HeLb : - (u * K * d + 3 * u) <= eL <= u * K * d + 3 * u).
  { unfold eL. rewrite <- HLex.
    replace (L - ln x) with ((L - ln q) + e0) by (unfold e0; ring).
    assert (2 * u * u <= u) by nra. lra. }
  (* np.log(PHI) *)
  destruct (rounded_pos _ _ HD ltac:(lra)) as ([HD1 HD2] & HD0 & _).
  fold u in HD1, HD2.
  set (eD := D - d).
  assert (HeD : - (u * d) <= eD <= u * d) by (unfold eD; lra).
  assert (HD46 : 0.46 <= D) by nra.
  (* the exact quotient of the two logarithms *)
  set (T := L / D). set (W := T - Nex).
  assert (HW : W * D = eL - Nex * eD).
  { unfold W, T, eL, eD. field. lra. }
  assert (HNe : - (K * (u * d)) <= Nex * eD <= K * (u * d)).
  { assert (0 <= u * d) by nra.
    destruct HKb as [Hk1 Hk2]. destruct HeD as [Hd3 Hd4]. split; nra. }
  set (B := 2 * u * K * d + 3 * u).
  assert (HWD : - B <= W * D <= B) by (rewrite HW; unfold B; lra).
  destruct (quotient_bound W D B HD46 HWD) as [HW1 HW2].
  assert (HB : B / 0.46 <= 2.7 * u * K + 6.6 * u).
  { unfold B. assert (u * K * d <= u * K * 0.62).
    { apply Rmult_le_compat_l; [nra | lra]. }
    lra. }
  set (C := 2.7 * u * K + 6.6 * u) in *.
  assert (HC0 : 0 <= C) by (unfold C; nra).
  assert (HTabs : Rabs T <= K + C).
  { apply Rabs_bound. unfold W in *. lra. }
  (* the last division *)
  pose proof (rounded_abs _ _ HN) as HeN. fold T u in HeN.
  assert (HeNb : - (u * (K + C)) <= N - T <= u * (K + C)).
  { apply Rabs_bound. apply Rle_trans with (u * Rabs T); [exact HeN |].
    apply Rmult_le_compat_l; lra. }
  apply Rabs_bound. fold x d Nex K.
  assert (HuC : u * C <= 0.1 * u * K + u).
  { unfold C. assert (0 <= u * K) by nra. nra. }
  unfold W, C in *. split; lra.
Qed.

(** The exponent range, in logarithms. *)

Lemma ln_2_upper : ln 2 <= 0.7.
Proof.
  rewrite <- (ln_exp 0.7). apply ln_monotone; [lra |].
  replace 0.7 with (INR 64 * (0.7 / 64)) by (simpl; lra).
  rewrite exp_mult_INR.
  apply Rle_trans with ((1 + 0.7 / 64) ^ 64); [lra |].
  apply pow_incr. split; [lra | apply exp_ineq1_le].
Qed.

Lemma ln_pow2 (n : nat) : ln (2 ^ n) = INR n * ln 2.
Proof. apply ln_pow. lra. Qed.

Lemma max_float_below : max_float <= 2 ^ 1024.
Proof.
  unfold max_float. change (2 ^ 1024) with (2 * 2 ^ 1023).
  pose proof (pow2_pos 1023) as Hp. set (t := 2 ^ 1023) in *.
  assert (Hc : 0 < / 2 ^ 52) by (apply Rinv_0_lt_compat, pow2_pos).
  set (e := / 2 ^ 52) in *. nra.
Qed.

Lemma max_float_above : 2 ^ 1023 <= max_float.
Proof.
  unfold max_float.
  pose proof (pow2_pos 1023) as Hp. set (t := 2 ^ 1023) in *.
  assert (Hc : / 2 ^ 52 <= 1).
  { apply Rle_trans with (/ 1); [| rewrite Rinv_1; lra].
    apply Rinv_le_contravar; [lra | apply pow_R1_Rle; lra]. }
  set (e := / 2 ^ 52) in *. nra.
Qed.

Lemma ln_normal (x : R) : 0 < x -> normal x -> - 716 <= ln x <= 717.
Proof.
  intros Hx [Hlo Hhi]. rewrite Rabs_pos_eq in Hlo, Hhi by lra.
  pose proof ln_2_upper as H2.
  assert (H0 : 0 < ln 2) by (rewrite <- ln_1; apply ln_increasing; lra).
  split.
  - apply Rle_trans with (ln min_normal).
    + unfold min_normal. rewrite ln_Rinv by apply pow2_pos. rewrite ln_pow2.
      replace (INR 1022) with 1022 by (rewrite INR_IZR_INZ; reflexivity).
      lra.
    + apply ln_monotone; [| exact Hlo].
      unfold min_normal. apply Rinv_0_lt_compat, pow2_pos.
  - apply Rle_trans with (ln (2 ^ 1024)).
    + apply ln_monotone; [exact Hx |].
      apply Rle_trans with max_float; [exact Hhi | exact max_float_below].
    + rewrite ln_pow2.
      replace (INR 1024) with 1024 by (rewrite INR_IZR_INZ; reflexivity).
      lra.
Qed.

(** The scale [PLANCK_LENGTH * PHI**k]: its exact segment count is [k] up to
    the two rounding errors of the scale, and [k] is bounded by the exponent
    range. *)
Lemma scale_at_segments (P lp : R) (k : Z) (s0 : R) :
  1.617 <= P <= 1.619 -> 0 < lp -> Rounded.scale_at P lp k s0 ->
  0 < s0 /\
  Rabs (ln (s0 / lp) / ln P - IZR k) <= 9 * rounding_unit /\
  Rabs (IZR k) <= 1526.
Proof.
  intros HP Hlp (p & _ & Hp & Hs).
  pose proof rounding_unit_bounds as [Hu0 Hu1].
  set (u := rounding_unit) in *.
  pose proof (ln_P_bounds P HP) as [Hd1 Hd2].
  assert (Hpk : 0 < Rpower P (IZR k)) by (unfold Rpower; apply exp_pos).
  destruct (rounded_pos _ _ Hp Hpk) as (Hpb & Hp0 & Hn). fold u in Hpb.
  assert (Hlpp : 0 < lp * p) by (apply Rmult_lt_0_compat; assumption).
  destruct (rounded_pos _ _ Hs Hlpp) as (Hsb & Hs0 & _). fold u in Hsb.
  pose proof (inv_one_minus u ltac:(lra)) as Hinv.
  destruct (ln_between _ p (1 - u) (1 + u) Hpk ltac:(lra) Hpb) as [He1l He1h].
  destruct (ln_between _ s0 (1 - u) (1 + u) Hlpp ltac:(lra) Hsb) as [He2l He2h].
  rewrite ln_mult in He2l, He2h by assumption.
  rewrite ln_Rpower in He1l, He1h.
  pose proof (ln_normal _ Hpk Hn) as Hkd. rewrite ln_Rpower in Hkd.
  assert (Hq : ln (s0 / lp) = ln s0 - ln lp).
  { unfold Rdiv. rewrite ln_mult by (try apply Rinv_0_lt_compat; assumption).
    rewrite ln_Rinv by assumption. ring. }
  set (d := ln P) in *.
  set (e := ln s0 - ln lp - IZR k * d).
  assert (He : - (4 * u) <= e <= 4 * u) by (unfold e; lra).
  assert (HW : (ln (s0 / lp) / d - IZR k) * d = e).
  { rewrite Hq. unfold e. field. lra. }
  split; [exact Hs0 |]. split.
  - apply Rabs_bound.
    destruct (quotient_bound (ln (s0 / lp) / d - IZR k) d (4 * u)) as [H1 H2];
      [lra | rewrite HW; exact He |].
    lra.
  - apply Rabs_bound. destruct Hkd as [Hk1 Hk2]. split; nra.
Qed.

(** The run without rounding errors is one of the runs. *)

Lemma normal_window (m n : nat) (x : R) :
  (m <= 1022)%nat -> (n <= 1023)%nat -> in_window m n x -> normal x.
Proof.
  intros Hm Hn Hw. pose proof (in_window_pos _ _ _ Hw) as Hx.
  destruct Hw as [Hlo Hhi].
  unfold normal. rewrite Rabs_pos_eq by lra. split.
  - apply Rle_trans with (/ 2 ^ m); [| exact Hlo].
    unfold min_normal.
    apply Rinv_le_contravar; [apply pow2_pos | apply pow2_le; exact Hm].
  - apply Rle_trans with (2 ^ n); [exact Hhi |].
    apply Rle_trans with (2 ^ 1023); [apply pow2_le; exact Hn |].
    exact max_float_above.
Qed.

Lemma rounded_window (m n : nat) (x : R) :
  (m <= 1022)%nat -> (n <= 1023)%nat -> in_window m n x -> rounded x x.
Proof. intros Hm Hn Hw. apply rounded_exact, (normal_window m n); assumption. Qed.

Lemma rounded_IZR (k : Z) : (Z.abs k <= 1000)%Z -> rounded (IZR k) (IZR k).
Proof.
  intros Hk. destruct (Z.eq_dec k 0) as [-> | Hne]; [left; split; reflexivity |].
  apply rounded_exact. unfold normal. rewrite <- abs_IZR.
  assert (H1 : 1 <= IZR (Z.abs k)) by (apply IZR_le; lia).
  assert (H2 : IZR (Z.abs k) <= 1000) by (apply IZR_le; lia).
  split.
  - apply Rle_trans with (/ 1); [| rewrite Rinv_1; exact H1].
    unfold min_normal. apply Rinv_le_contravar; [lra | apply pow_R1_Rle; lra].
  - apply Rle_trans with (2 ^ 1023); [| exact max_float_above].
    apply Rle_trans with (2 ^ 10); [lra | apply pow2_le; lia].
Qed.

Lemma PHI_exact : Rounded.PHI Spec.phi.
Proof.
  pose proof sqrt5_bounds as Hs.
  exists (sqrt 5), (1 + sqrt 5). unfold Spec.phi.
  split; [| split]; apply (rounded_window 0 2); try lia; split; simpl; lra.
Qed.

Lemma PLANCK_LENGTH_exact : Rounded.PLANCK_LENGTH Spec.minimum_length.
Proof.
  pose proof PI_bounds as [Hlo Hhi].
  pose proof minimum_length_radicand as Hrad.
  pose proof minimum_length_bounds as Hlp.
  assert (Hinv : / 8 <= / (2 * PI) <= / 6).
  { split; apply Rinv_le_contravar; lra. }
  assert (Hhb : in_window 120 0 (h_planck / (2 * PI))).
  { unfold h_planck, Rdiv. split; [| simpl; nra].
    apply Rle_trans with (6.62607015e-34 * / 8); [lra | nra]. }
  assert (Hg : in_window 40 0 6.67430e-11) by (split; [lra | simpl; lra]).
  exists (h_planck / (2 * PI)), 6.67430e-11,
         (h_planck / (2 * PI) * 6.67430e-11), (299792458 ^ 3),
         (h_planck / (2 * PI) * 6.67430e-11 / 299792458 ^ 3).
  split; [apply (rounded_window 120 0); try lia; exact Hhb |].
  split; [apply (rounded_window 40 0); try lia; exact Hg |].
  split; [apply (rounded_window (120 + 40) (0 + 0)); try lia;
          apply in_window_mult; assumption |].
  split; [apply (rounded_window 0 100); try lia; split; lra |].
  split; [apply (rounded_window 240 0); try lia;
          split; [apply Hrad | simpl; apply Hrad] |].
  assert (Hpos : 0 < / 2 ^ 240) by (apply Rinv_0_lt_compat, pow2_pos).
  split; [lra |].
  fold Spec.minimum_length.
  apply (rounded_window 120 0); try lia. split; [apply Hlp | simpl; apply Hlp].
Qed.

(** [calculate_nmax(PLANCK_LENGTH * PHI**k)] without rounding errors. *)
Lemma scale_at_exact (k : Z) :
  (-1000 <= k <= 1000)%Z ->
  Rounded.scale_at Spec.phi Spec.minimum_length k
    (Spec.minimum_length * Rpower Spec.phi (IZR k))
  /\ Rounded.calculate_nmax Spec.phi Spec.minimum_length
       (Spec.minimum_length * Rpower Spec.phi (IZR k)) (IZR k).
Proof.
  intros Hk. pose proof minimum_length_pos as Hlp.
  pose proof phi_pos as Hphi. pose proof ln_phi_bounds as [Hlo Hhi].
  pose proof (Rpower_phi_Z k Hk) as Hp.
  assert (Hwlp : in_window 120 0 Spec.minimum_length).
  { pose proof minimum_length_bounds as [H1 H2]. split; [exact H1 | simpl; lra]. }
  assert (Hq : Spec.minimum_length * Rpower Spec.phi (IZR k) / Spec.minimum_length
               = Rpower Spec.phi (IZR k)) by (field; lra).
  assert (HN : IZR k * ln Spec.phi / ln Spec.phi = IZR k) by (field; lra).
  split.
  - exists (Rpower Spec.phi (IZR k)). split; [exact Hphi |]. split.
    + apply (rounded_window 700 700); try lia. exact Hp.
    + apply (rounded_window (120 + 700) (0 + 700)); try lia.
      apply in_window_mult; assumption.
  - exists (Rpower Spec.phi (IZR k)), (IZR k * ln Spec.phi), (ln Spec.phi).
    rewrite Hq, ln_Rpower, HN.
    split; [apply (rounded_window 700 700); try lia; exact Hp |].
    split; [apply (in_window_pos _ _ _ Hp) |].
    split.
    { destruct (Z.eq_dec k 0) as [-> | Hne].
      - left. split; ring.
      - apply rounded_exact. unfold normal.
        rewrite Rabs_mult, (Rabs_pos_eq (ln Spec.phi)) by lra.
        rewrite <- abs_IZR.
        assert (H1 : 1 <= IZR (Z.abs k)) by (apply IZR_le; lia).
        assert (H2 : IZR (Z.abs k) <= 1000) by (apply IZR_le; lia).
        split.
        + apply Rle_trans with (/ 2 ^ 2); [| simpl; nra].
          unfold min_normal.
          apply Rinv_le_contravar; [apply pow2_pos | apply pow2_le; lia].
        + apply Rle_trans with (2 ^ 1023); [| exact max_float_above].
          apply Rle_trans with (2 ^ 10); [nra | apply pow2_le; lia]. }
    split; [exact Hphi |].
    split; [apply (rounded_window 2 0); try lia; split; simpl; lra |].
    apply rounded_IZR. lia.
Qed.

(** Rounding errors in logarithms: products and quotients of positive
    numbers add them up. *)

Lemma rounded_ln (t r : R) :
  rounded t r -> 0 < t ->
  0 < r /\ - (2 * rounding_unit) <= ln r - ln t <= rounding_unit.
Proof.
  intros Hr Ht. pose proof rounding_unit_bounds as [Hu0 Hu1].
  destruct (rounded_pos _ _ Hr Ht) as (Hb & Hr0 & _).
  set (u := rounding_unit) in *.
  destruct (ln_between t r (1 - u) (1 + u) Ht ltac:(lra) Hb) as [Hl Hh].
  pose proof (inv_one_minus u ltac:(lra)) as Hinv.
  split; [exact Hr0 | lra].
Qed.

Lemma exp_near_1 (z e : R) :
  - e <= z <= e -> e <= / 2 -> - (2 * e) <= exp z - 1 <= 2 * e.
Proof.
  intros [Hlo Hhi] He.
  pose proof (exp_ineq1_le z) as H1.
  pose proof (exp_ineq1_le (- z)) as H2. rewrite exp_Ropp in H2.
  pose proof (exp_pos z) as Hp.
  split; [lra |].
  assert (Hi : exp z <= / (1 - z)).
  { rewrite <- (Rinv_inv (exp z)). apply Rinv_le_contravar; lra. }
  assert (Hz : / (1 - z) <= 1 + 2 * e).
  { apply Rmult_le_reg_l with (1 - z); [lra |].
    rewrite Rinv_r by lra. nra. }
  lra.
Qed.

(** Two positive numbers whose logarithms are close are close. *)
Lemma close_of_ln (x y e : R) :
  0 < x -> 0 < y -> - e <= ln y - ln x <= e -> e <= / 2 ->
  Rabs (y - x) <= 2 * e * x.
Proof.
  intros Hx Hy Hln He.
  pose proof (exp_near_1 _ _ Hln He) as [Hlo Hhi].
  assert (Hy' : y = x * exp (ln y - ln x)).
  { unfold Rminus. rewrite exp_plus, exp_Ropp, !exp_ln by assumption.
    field. lra. }
  apply Rabs_bound. rewrite Hy' at 1 2.
  set (w := exp (ln y - ln x)) in *. split; nra.
Qed.

(** [calculate_nmax] with the constants of the script: the result is
    [ln(s0 / lp) / ln P] within [6200] rounding units, and at most 1526 in
    magnitude. *)
Lemma calculate_nmax_error (P lp s0 N : R) :
  1.617 <= P <= 1.619 -> 0 < lp -> 0 < s0 ->
  Rounded.calculate_nmax P lp s0 N ->
  Rabs (ln (s0 / lp) / ln P) <= 1526
  /\ Rabs (N - ln (s0 / lp) / ln P) <= 6200 * rounding_unit.
Proof.
  intros HP Hlp Hs0 HN.
  pose proof (calculate_nmax_accuracy P lp s0 N HP Hlp Hs0 HN) as Hacc.
  destruct HN as (q & L & D & Hq & _).
  assert (Hx : 0 < s0 / lp) by (apply Rdiv_lt_0_compat; assumption).
  destruct (rounded_pos _ _ Hq Hx) as (_ & _ & Hn).
  pose proof (ln_normal _ Hx Hn) as [Hl1 Hl2].
  pose proof (ln_P_bounds P HP) as [Hd1 Hd2].
  pose proof rounding_unit_bounds as [Hu0 Hu1].
  set (u := rounding_unit) in *. set (d := ln P) in *.
  set (Nex := ln (s0 / lp) / d) in *.
  assert (HL : ln (s0 / lp) = Nex * d) by (unfold Nex; field; lra).
  assert (HK : Rabs Nex <= 1526).
  { apply Rabs_bound. rewrite HL in Hl1, Hl2. split; nra. }
  split; [exact HK |].
  apply Rle_trans with (u * (4 * Rabs Nex + 9)); [exact Hacc |].
  assert (u * Rabs Nex <= u * 1526) by (apply Rmult_le_compat_l; lra).
  lra.
Qed.

(** A value inside a window of the exponent range is returned as it is by
    the run without rounding errors. *)
Ltac by_window H := eapply rounded_window; [ | | exact H]; lia.

Lemma rounding_unit_small : rounding_unit <= 3e-14.
Proof. unfold rounding_unit. lra. Qed.

Lemma ln_sqrt_half (x : R) : 0 < x -> ln (sqrt x) = ln x / 2.
Proof.
  intros Hx. rewrite <- Rpower_sqrt by exact Hx.
  rewrite ln_Rpower. lra.
Qed.

Lemma ln_quotient (x y : R) : 0 < x -> 0 < y -> ln (x / y) = ln x - ln y.
Proof.
  intros Hx Hy. unfold Rdiv.
  rewrite ln_mult, ln_Rinv; [lra | exact Hy | exact Hx |].
  apply Rinv_0_lt_compat. exact Hy.
Qed.

(** The exact segment count of a scale, from the logarithms. *)
Lemma segments_exact (P lp s0 : R) :
  0 < ln P -> 0 < lp -> 0 < s0 ->
  ln (s0 / lp) / ln P * ln P = ln s0 - ln lp.
Proof.
  intros Hd Hlp Hs0. rewrite ln_quotient by assumption. field. lra.
Qed.

(** [s0 * PHI**(-N)] is [s0 * P^(-N)] within four rounding units, in
    logarithms. *)
Lemma segment_length_ln (P s0 N s : R) :
  0 < s0 -> Rounded.segment_length P s0 N s ->
  0 < s /\
  - (4 * rounding_unit) <= ln s - (ln s0 - N * ln P) <= 2 * rounding_unit.
Proof.
  intros Hs0 (pw & _ & Hpw & Hs).
  assert (Hp : 0 < Rpower P (- N)) by (unfold Rpower; apply exp_pos).
  destruct (rounded_ln _ _ Hpw Hp) as [Hpw0 He1].
  rewrite ln_Rpower in He1.
  assert (Hm : 0 < s0 * pw) by (apply Rmult_lt_0_compat; assumption).
  destruct (rounded_ln _ _ Hs Hm) as [Hs1 He2].
  rewrite ln_mult in He2 by assumption.
  split; [exact Hs1 | lra].
Qed.

(** [pi_eff(N, R0, lambda_seg)] on positive [N] and [R0]: the logarithm of
    the result is [ln N - N ln P - ln 2 - lambda_seg N], where [R0] does not
    occur, within [11 + |lambda_seg N|] rounding units. *)
Lemma pi_eff_ln (P N R0 lambda_seg v : R) :
  0 < N -> 0 < R0 -> Rounded.pi_eff P N R0 lambda_seg v ->
  0 < v /\
  Rabs (ln v - (ln N - N * ln P - ln 2 - lambda_seg * N))
  <= (11 + Rabs (lambda_seg * N)) * rounding_unit.
Proof.
  intros HN HR0 (s_phi & t & ex & R_N & C_N & den &
                 Hs & Ht & Hex & HRN & HCN & Hden & _ & Hv).
  pose proof rounding_unit_bounds as [Hu0 _].
  destruct (segment_length_ln P R0 N s_phi HR0 Hs) as [Hs0 He1].
  pose proof (rounded_abs _ _ Ht) as Het. apply Rabs_bound in Het.
  destruct (rounded_ln _ _ Hex (exp_pos t)) as [Hex0 He2].
  rewrite ln_exp in He2.
  assert (H1 : 0 < R0 * ex) by (apply Rmult_lt_0_compat; assumption).
  destruct (rounded_ln _ _ HRN H1) as [HRN0 He3].
  rewrite ln_mult in He3 by assumption.
  assert (H2 : 0 < N * s_phi) by (apply Rmult_lt_0_compat; assumption).
  destruct (rounded_ln _ _ HCN H2) as [HCN0 He4].
  rewrite ln_mult in He4 by assumption.
  assert (H3 : 0 < 2 * R_N) by (apply Rmult_lt_0_compat; lra).
  destruct (rounded_ln _ _ Hden H3) as [Hden0 He5].
  rewrite ln_mult in He5 by lra.
  assert (H4 : 0 < C_N / den) by (apply Rdiv_lt_0_compat; assumption).
  destruct (rounded_ln _ _ Hv H4) as [Hv0 He6].
  rewrite ln_quotient in He6 by assumption.
  split; [exact Hv0 |].
  set (u := rounding_unit) in *. set (A := Rabs (lambda_seg * N)) in *.
  apply Rabs_bound. split; nra.
Qed.

(** * The properties of the specification *)

(** C1.  For every segment count [N] and parameters [R0] and [lambda],
    [pi_eff] returns [circumference_N / (2 * radius_N)], where
    [segment_length = R0 * phi^(-N)], [radius_N = R0 * e^(lambda N)] and
    [circumference_N = N * segment_length], with [phi = (1 + sqrt 5) / 2]. *)
Theorem pi_eff_formula (N R0 lambda_seg : float64) :
  pi_eff N R0 lambda_seg
  = np_divide (Spec.circumference_N N R0)
              (np_multiply (Fin 2) (Spec.radius_N N R0 lambda_seg))
  /\ Spec.circumference_N N R0 = np_multiply N (Spec.segment_length N R0)
  /\ Spec.segment_length N R0
     = np_multiply R0 (np_power (Fin ((1 + sqrt 5) / 2)) (np_negative N))
  /\ Spec.radius_N N R0 lambda_seg
     = np_multiply R0 (np_exp (np_multiply lambda_seg N)).
Proof.
  repeat split.
  unfold pi_eff, Spec.circumference_N, Spec.segment_length, Spec.radius_N.
  rewrite PHI_value. reflexivity.
Qed.

(** C2.  For every scale [s0], [calculate_nmax] returns
    [ln(s0 / minimum_length) / ln(phi)], where [minimum_length] is the Planck
    length [sqrt(hbar G / c^3)] and [phi = (1 + sqrt 5) / 2]: as float64
    operations on every argument, and as a real number when [s0 > 0] and the
    quotient and the result stay inside the exponent range. *)
Theorem calculate_nmax_formula (s0 lambda_seg : float64) :
  calculate_nmax s0 lambda_seg
  = np_divide (np_log (np_divide s0 (Fin Spec.minimum_length)))
              (np_log (Fin Spec.phi))
  /\ forall r : R,
       s0 = Fin r -> 0 < r ->
       in_window 1020 1020 (r / Spec.minimum_length) ->
       ln (r / Spec.minimum_length) / ln Spec.phi = 0 \/
       / 2 ^ 1000 <= Rabs (ln (r / Spec.minimum_length) / ln Spec.phi) ->
       calculate_nmax s0 lambda_seg
       = Fin (ln (r / Spec.minimum_length) / ln Spec.phi).
Proof.
  split.
  - unfold calculate_nmax. rewrite PLANCK_LENGTH_value, PHI_value. reflexivity.
  - intros r -> _ Hw HN. apply calculate_nmax_real; assumption.
Qed.

Lemma Z_as_nat (N : Z) : (1 <= N)%Z -> N = Z.of_nat (Z.to_nat N).
Proof. intros H. rewrite Z2Nat.id; [reflexivity | lia]. Qed.

(** C3.  In the reference parameterization the error of [pi_eff(N)] with
    respect to [pi_classical] is not decreasing towards zero over [1, 60]:
    from each [N] of the range to the next it does not decrease, it stays
    above 2.8, and up to [N = 20] it grows strictly, so that
    [|pi_eff(N+1) - pi_classical| <= |pi_eff(N) - pi_classical|] is false
    there. *)
Theorem pi_eff_error_grows (N : Z) :
  (1 <= N <= 60)%Z ->
  np_less_equal (pi_diff_classical N) (pi_diff_classical (N + 1)) = true
  /\ np_less (Fin 2.8) (pi_diff_classical N) = true
  /\ ((N <= 20)%Z ->
      np_less (pi_diff_classical N) (pi_diff_classical (N + 1)) = true
      /\ np_less_equal (pi_diff_classical (N + 1)) (pi_diff_classical N) = false).
Proof.
  intros HN.
  rewrite (Z_as_nat N) by lia.
  replace (Z.of_nat (Z.to_nat N) + 1)%Z with (Z.of_nat (S (Z.to_nat N))) by lia.
  set (n := Z.to_nat N). assert (Hn : (1 <= n <= 60)%nat) by lia.
  rewrite !pi_diff_classical_value by lia.
  pose proof (effective_pi_ref_decreasing n ltac:(lia)) as Hdec.
  pose proof (effective_pi_ref_lt_1 n ltac:(lia)) as [Hpos Hlt].
  pose proof PI_bounds as [Hlo Hhi].
  unfold np_less_equal, np_less. repeat split.
  - apply Rleb_true. lra.
  - apply Rltb_true. lra.
  - apply Rltb_true. lra.
  - apply Rleb_false. lra.
Qed.

Lemma pi_eff_error_grows_at_20 :
  np_less (pi_diff_classical 20) (pi_diff_classical 21) = true
  /\ np_less_equal (pi_diff_classical 21) (pi_diff_classical 20) = false
  /\ np_less (Fin 2.8) (pi_diff_classical 20) = true.
Proof.
  destruct (pi_eff_error_grows 20) as (_ & Habove & Hgrow); [lia |].
  destruct Hgrow as [Hlt Hle]; [lia |].
  repeat split; assumption.
Defined.

(** C4, as the code has it.  [calculate_nmax] raises nothing on a
    non-positive scale: [calculate_nmax(0)] returns [-inf],
    [calculate_nmax(-1)] returns NaN, and every negative scale returns NaN
    or [-inf]. *)
Theorem calculate_nmax_nonpositive (lambda_seg : float64) :
  calculate_nmax (Fin 0) lambda_seg = NInf
  /\ calculate_nmax (Fin (-1)) lambda_seg = NaN
  /\ forall s0 : R, s0 < 0 ->
       calculate_nmax (Fin s0) lambda_seg = NaN \/
       calculate_nmax (Fin s0) lambda_seg = NInf.
Proof.
  split; [apply calculate_nmax_zero |].
  split; [apply calculate_nmax_minus_one |].
  intros s0 Hs. apply calculate_nmax_negative. exact Hs.
Qed.

(** C4, as stated, fails: the calls with 0 and -1 return values. *)
Lemma calculate_nmax_returns_at_0_and_minus_1 :
  calculate_nmax (np_int 0) lambda_seg_default = NInf
  /\ calculate_nmax (np_int (-1)) lambda_seg_default = NaN.
Proof.
  split; [apply calculate_nmax_zero | apply calculate_nmax_minus_one].
Qed.

(** C5, as the code has it.  For every integer [k] for which
    [calculate_nmax(PLANCK_LENGTH * PHI**k)] is computed without overflow or
    underflow, the result equals [k] within [1e-9], whatever the rounding
    errors of the operations; at [k = 42] this is [N_max_42]. *)
Theorem scale_to_segments_inverse (k : Z) (P lp s0 N_max : R) :
  Rounded.PHI P -> Rounded.PLANCK_LENGTH lp ->
  Rounded.scale_at P lp k s0 ->
  Rounded.calculate_nmax P lp s0 N_max ->
  Rabs (N_max - IZR k) <= 1e-9.
Proof.
  intros HPHI HPL Hs HN.
  pose proof (PHI_rounded_bounds P HPHI) as HP.
  pose proof (PLANCK_LENGTH_rounded_pos lp HPL) as Hlp.
  destruct (scale_at_segments P lp k s0 HP Hlp Hs) as (Hs0 & Hk & Hkb).
  pose proof (calculate_nmax_accuracy P lp s0 N_max HP Hlp Hs0 HN) as Hacc.
  pose proof rounding_unit_bounds as [Hu0 Hu1].
  set (u := rounding_unit) in *.
  set (Nex := ln (s0 / lp) / ln P) in *.
  apply Rabs_bound in Hk. apply Rabs_bound in Hkb.
  assert (HK : Rabs Nex <= 1527) by (apply Rabs_bound; lra).
  apply Rabs_bound in Hacc. apply Rabs_bound.
  assert (HuK : u * Rabs Nex <= u * 1527)
    by (apply Rmult_le_compat_l; lra).
  lra.
Qed.

Lemma N_max_42_accuracy :
  exists s0 N_max : R,
    Rounded.PHI Spec.phi /\ Rounded.PLANCK_LENGTH Spec.minimum_length /\
    Rounded.scale_at Spec.phi Spec.minimum_length 42 s0 /\
    Rounded.calculate_nmax Spec.phi Spec.minimum_length s0 N_max /\
    Rabs (N_max - 42) <= 1e-9.
Proof.
  destruct (scale_at_exact 42) as [Hs HN]; [lia |].
  exists (Spec.minimum_length * Rpower Spec.phi 42), 42.
  split; [exact PHI_exact |]. split; [exact PLANCK_LENGTH_exact |].
  split; [exact Hs |]. split; [exact HN |].
  exact (scale_to_segments_inverse 42 _ _ _ _
           PHI_exact PLANCK_LENGTH_exact Hs HN).
Defined.

(** C5, as stated, fails: at [k = 2000] the scale overflows to [inf] and so
    does the result; at [k = -2000] the scale underflows to zero and the
    result is [-inf]. *)
Lemma scale_to_segments_inverse_fails_out_of_range :
  calculate_nmax (Spec.scale_at 2000) lambda_seg_default = PInf
  /\ Spec.within (calculate_nmax (Spec.scale_at 2000) lambda_seg_default)
                 (np_int 2000) Spec.tolerance = false
  /\ calculate_nmax (Spec.scale_at (-2000)) lambda_seg_default = NInf
  /\ Spec.within (calculate_nmax (Spec.scale_at (-2000)) lambda_seg_default)
                 (np_int (-2000)) Spec.tolerance = false.
Proof.
  rewrite scale_at_2000, calculate_nmax_PInf.
  rewrite scale_at_minus_2000, calculate_nmax_zero.
  repeat split; reflexivity.
Qed.

(** C6.  On the samples [pi_eff(N)], [N] in [1, 100), with the default
    parameters and [epsilon = 1e-10], the scan finds a convergence index: the
    first one is index 16, and the report is "convergence reached at
    N = 17", not the warning. *)
Theorem script_scan_converges :
  exists rest, script_convergence_index = 16%nat :: rest
  /\ script_convergence_report
     = Returns (ConvergenceReached 17
                  (pi_eff (np_int 17) R0_default lambda_seg_default)
                  (pi_diff_classical 17)).
Proof.
  destruct (convergence_index_first _ _ _ script_first_below) as [rest Hidx].
  exists rest. split; [exact Hidx |].
  destruct (convergence_report_reached N_range pi_eff_values epsilon 16)
    as (N & a & HN & Ha & Hrep).
  - rewrite N_range_length, pi_eff_values_length. reflexivity.
  - exact script_first_below.
  - rewrite N_range_nth in HN by lia. injection HN as <-.
    rewrite pi_eff_values_nth in Ha by lia. injection Ha as <-.
    unfold script_convergence_report. rewrite Hrep.
    unfold pi_diff_classical.
    change 17%Z with (Z.of_nat 17). rewrite pi_eff_value by lia.
    reflexivity.
Qed.







(** C9.  For every integer [N] with [1 <= N < 100], [pi_eff(N)] with the
    default parameters is strictly between 0 and 1, and lies more than 2
    below [pi_classical]. *)
Theorem pi_eff_range (N : Z) :
  (1 <= N < 100)%Z ->
  exists x : R,
    pi_eff (np_int N) R0_default lambda_seg_default = Fin x
    /\ 0 < x < 1 /\ x + 2 < PI
    /\ np_less (Fin 0) (pi_eff (np_int N) R0_default lambda_seg_default) = true
    /\ np_less (pi_eff (np_int N) R0_default lambda_seg_default) (Fin 1) = true
    /\ np_less (np_add (pi_eff (np_int N) R0_default lambda_seg_default) (Fin 2))
               pi_classical = true.
Proof.
  intros HN. rewrite (Z_as_nat N) by lia.
  set (n := Z.to_nat N). assert (Hn : (1 <= n <= 99)%nat) by lia.
  rewrite pi_eff_value by lia.
  pose proof (effective_pi_ref_lt_1 n ltac:(lia)) as [Hpos Hlt].
  pose proof PI_bounds as [Hlo Hhi].
  exists (Spec.effective_pi_ref n).
  split; [reflexivity |]. split; [lra |]. split; [lra |].
  unfold np_less, np_add, pi_classical.
  rewrite (float64_of_R_pos 0 2) by (try lia; simpl; lra).
  repeat split; apply Rltb_true; lra.
Qed.

Lemma pi_eff_range_at_42 :
  exists x : R,
    pi_eff (np_int 42) R0_default lambda_seg_default = Fin x
    /\ 0 < x < 1 /\ x + 2 < PI
    /\ np_less (Fin 0) (pi_eff (np_int 42) R0_default lambda_seg_default) = true
    /\ np_less (pi_eff (np_int 42) R0_default lambda_seg_default) (Fin 1) = true
    /\ np_less (np_add (pi_eff (np_int 42) R0_default lambda_seg_default) (Fin 2))
               pi_classical = true.
Proof. apply (pi_eff_range 42). lia. Defined.

(** C10.  The result of [calculate_nmax] does not depend on [lambda_seg]. *)
Theorem calculate_nmax_ignores_lambda_seg (s0 lambda1 lambda2 : float64) :
  calculate_nmax s0 lambda1 = calculate_nmax s0 lambda2.
Proof. reflexivity. Qed.

(** * Further properties of the code *)

(** ** [calculate_nmax] is monotone *)

Lemma thresholds : 0 < underflow_threshold < 1 /\ 1 <= overflow_threshold.
Proof.
  unfold underflow_threshold, overflow_threshold. repeat split.
  - apply Rinv_0_lt_compat, pow2_pos.
  - rewrite <- Rinv_1.
    apply Rinv_lt_contravar; [pose proof (pow2_pos 1075); lra |].
    apply Rlt_pow_R1; [lra | lia].
  - apply pow_R1_Rle. lra.
Qed.

Lemma fle_float64_of_R (x y : R) :
  x <= y -> fle (float64_of_R x) (float64_of_R y).
Proof.
  intros Hxy. destruct thresholds as [[Hu0 Hu1] Ho].
  unfold fle, float64_of_R, Rleb, Rltb.
  destruct (Rle_dec overflow_threshold (Rabs x)) as [Hox | Hox];
    destruct (Rle_dec overflow_threshold (Rabs y)) as [Hoy | Hoy];
    destruct (Rlt_dec 0 x) as [Hx | Hx];
    destruct (Rlt_dec 0 y) as [Hy | Hy];
    destruct (Rle_dec (Rabs x) underflow_threshold) as [Hux | Hux];
    destruct (Rle_dec (Rabs y) underflow_threshold) as [Huy | Huy];
    simpl; try reflexivity;
    unfold Rleb;
    try (destruct (Rle_dec _ _) as [Hle | Hle]; [reflexivity | exfalso]);
    revert Hox Hoy Hux Huy; try revert Hle;
    unfold Rabs; destruct (Rcase_abs x); destruct (Rcase_abs y); intros; lra.
Qed.

Lemma float64_of_R_not_nan (x : R) : float64_of_R x <> NaN.
Proof.
  unfold float64_of_R.
  destruct (Rleb overflow_threshold (Rabs x)); [destruct (Rltb 0 x); discriminate |].
  destruct (Rleb (Rabs x) underflow_threshold); discriminate.
Qed.

(** A non-negative result is zero, a positive number or [inf]. *)
Lemma float64_of_R_nonneg (x : R) :
  0 <= x -> float64_of_R x = PInf \/ exists r, 0 <= r /\ float64_of_R x = Fin r.
Proof.
  intros Hx. destruct thresholds as [[Hu0 Hu1] Ho].
  unfold float64_of_R, Rleb, Rltb. rewrite Rabs_pos_eq by exact Hx.
  destruct (Rle_dec overflow_threshold x) as [Hox | Hox].
  - destruct (Rlt_dec 0 x); [left; reflexivity | lra].
  - destruct (Rle_dec x underflow_threshold);
      right; eexists; (split; [| reflexivity]); lra.
Qed.

Lemma fle_NInf_l (x : float64) : x <> NaN -> fle NInf x.
Proof. intros H. destruct x; try reflexivity. contradiction. Qed.

Lemma fle_PInf_r (x : float64) : x <> NaN -> fle x PInf.
Proof. intros H. destruct x; try reflexivity. contradiction. Qed.

Lemma fle_Fin (x y : R) : fle (Fin x) (Fin y) <-> x <= y.
Proof.
  unfold fle, np_less_equal, Rleb.
  destruct (Rle_dec x y); split; intros; try assumption; try reflexivity;
    try discriminate; contradiction.
Qed.

Lemma np_divide_pos_not_nan (u : float64) (d : R) :
  0 < d -> u <> NaN -> np_divide u (Fin d) <> NaN.
Proof.
  intros Hd Hu. destruct u as [x | | |]; [| | | contradiction]; unfold np_divide;
    rewrite (Rsgn_pos d Hd); try discriminate.
  apply float64_of_R_not_nan.
Qed.

Lemma np_divide_pos_mono (u v : float64) (d : R) :
  0 < d -> fle u v -> fle (np_divide u (Fin d)) (np_divide v (Fin d)).
Proof.
  intros Hd Huv.
  assert (Hi : 0 < / d) by (apply Rinv_0_lt_compat; exact Hd).
  destruct u as [x | | |], v as [y | | |]; try discriminate Huv;
    unfold np_divide; rewrite (Rsgn_pos d Hd); try reflexivity.
  - apply fle_float64_of_R. apply fle_Fin in Huv. unfold Rdiv. nra.
  - apply fle_PInf_r, float64_of_R_not_nan.
  - apply fle_NInf_l, float64_of_R_not_nan.
Qed.

Lemma np_log_not_nan (u : float64) :
  (u = PInf \/ exists r, 0 <= r /\ u = Fin r) -> np_log u <> NaN.
Proof.
  intros [-> | (r & Hr & ->)]; unfold np_log; [discriminate |].
  destruct (Req_dec_T r 0) as [-> | Hne].
  - rewrite Rsgn_zero. discriminate.
  - rewrite Rsgn_pos by lra. apply float64_of_R_not_nan.
Qed.

Lemma np_log_mono (u v : float64) :
  (u = PInf \/ exists r, 0 <= r /\ u = Fin r) ->
  fle u v -> fle (np_log u) (np_log v).
Proof.
  intros [-> | (r & Hr & ->)] Huv.
  - destruct v; try discriminate Huv. reflexivity.
  - destruct v as [y | | |]; try discriminate Huv.
    + apply fle_Fin in Huv.
      destruct (Req_dec_T r 0) as [-> | Hne].
      * unfold np_log at 1. rewrite Rsgn_zero.
        apply fle_NInf_l, np_log_not_nan. right. exists y. split; [exact Huv | reflexivity].
      * unfold np_log. rewrite !Rsgn_pos by lra.
        apply fle_float64_of_R.
        destruct (Req_dec_T r y) as [-> | Hry]; [lra |].
        left. apply ln_increasing; lra.
    + apply fle_PInf_r, np_log_not_nan. right. exists r. split; [exact Hr | reflexivity].
Qed.

Lemma calculate_nmax_mono_real (a b : R) (lambda_seg : float64) :
  0 <= a <= b ->
  fle (calculate_nmax (Fin a) lambda_seg) (calculate_nmax (Fin b) lambda_seg).
Proof.
  intros [Ha Hab]. pose proof minimum_length_pos as Hlp.
  pose proof ln_phi_bounds as [Hlo Hhi].
  assert (Hi : 0 < / Spec.minimum_length) by (apply Rinv_0_lt_compat; exact Hlp).
  unfold calculate_nmax. rewrite PLANCK_LENGTH_value, np_log_PHI.
  apply np_divide_pos_mono; [lra |].
  unfold np_divide. rewrite Rsgn_pos by exact Hlp.
  apply np_log_mono.
  - apply float64_of_R_nonneg. unfold Rdiv. nra.
  - apply fle_float64_of_R. unfold Rdiv. nra.
Qed.

(** X1.  [calculate_nmax] is non-decreasing in the scale: for
    [0 <= a <= b] the comparison [calculate_nmax(a) <= calculate_nmax(b)]
    holds, whatever [lambda_seg] is passed to either call, also where the
    result is [-inf] (at zero, by underflow) or [inf] (by overflow). *)
Theorem calculate_nmax_monotone (a b : R) (lambda1 lambda2 : float64) :
  0 <= a <= b ->
  np_less_equal (calculate_nmax (Fin a) lambda1) (calculate_nmax (Fin b) lambda2)
  = true.
Proof. intros H. apply (calculate_nmax_mono_real a b lambda1 H). Qed.

Lemma calculate_nmax_monotone_example :
  0 <= 1 <= 2 /\
  np_less_equal (calculate_nmax (Fin 1) lambda_seg_default)
                (calculate_nmax (Fin 2) lambda_seg_default) = true.
Proof.
  assert (H : 0 <= 1 <= 2) by lra.
  split; [exact H | apply (calculate_nmax_monotone 1 2 _ _ H)].
Defined.

(** ** [calculate_nmax] on regular scales *)

Lemma minimum_length_small : Spec.minimum_length <= / 2 ^ 110.
Proof.
  pose proof PI_bounds as [Hlo Hhi].
  assert (Hinv : / (2 * PI) <= / 6) by (apply Rinv_le_contravar; lra).
  assert (Hrad : h_planck / (2 * PI) * 6.67430e-11 / 299792458 ^ 3 <= / 2 ^ 220).
  { unfold h_planck.
    apply Rle_trans with (6.62607015e-34 * / 6 * 6.67430e-11 / 299792458 ^ 3); [| lra].
    unfold Rdiv at 1. unfold Rdiv at 3.
    apply Rmult_le_compat_r; [left; apply Rinv_0_lt_compat; lra |].
    unfold Rdiv. nra. }
  unfold Spec.minimum_length.
  replace (/ 2 ^ 110) with (sqrt (/ 2 ^ 220)).
  - apply sqrt_le_1_alt. exact Hrad.
  - apply sqrt_lem_1; lra.
Qed.

Lemma ln_2_lower : / 2 < ln 2.
Proof. exact ln_lt_2. Qed.

(** The quotient of a scale in [[2 lp, 2^800]] by the minimum length. *)
Lemma quotient_window (s0 : R) :
  2 * Spec.minimum_length <= s0 <= 2 ^ 800 ->
  2 <= s0 / Spec.minimum_length /\ in_window 0 920 (s0 / Spec.minimum_length).
Proof.
  intros [Hlo Hhi]. pose proof minimum_length_pos as Hlp.
  pose proof minimum_length_bounds as [Hlpl Hlph].
  assert (Hw : in_window 0 120 (/ Spec.minimum_length)).
  { apply in_window_inv. split; [exact Hlpl | simpl; lra]. }
  destruct Hw as [_ Hinv].
  assert (Hi : 0 < / Spec.minimum_length) by (apply Rinv_0_lt_compat; exact Hlp).
  assert (H2 : 2 <= s0 / Spec.minimum_length).
  { apply Rmult_le_reg_r with Spec.minimum_length; [exact Hlp |].
    unfold Rdiv. rewrite Rmult_assoc, Rinv_l by lra. lra. }
  split; [exact H2 |]. split.
  - simpl. lra.
  - change 920%nat with (800 + 120)%nat. rewrite pow_add.
    unfold Rdiv. apply Rmult_le_compat; lra.
Qed.

Lemma calculate_nmax_above (s0 : R) (lambda_seg : float64) :
  2 * Spec.minimum_length <= s0 <= 2 ^ 800 ->
  calculate_nmax (Fin s0) lambda_seg
  = Fin (ln (s0 / Spec.minimum_length) / ln Spec.phi)
  /\ / 2 <= ln (s0 / Spec.minimum_length) / ln Spec.phi <= 2 ^ 922.
Proof.
  intros Hs. destruct (quotient_window s0 Hs) as [H2 Hw].
  pose proof ln_phi_bounds as [Hlo Hhi].
  pose proof (ln_window _ _ _ Hw) as [_ HLhi].
  assert (HL : / 2 < ln (s0 / Spec.minimum_length)).
  { apply Rlt_le_trans with (ln 2); [exact ln_2_lower |].
    destruct (Req_dec_T 2 (s0 / Spec.minimum_length)) as [<- | Hne]; [lra |].
    left. apply ln_increasing; lra. }
  assert (Hinv : 1 < / ln Spec.phi < 4).
  { split.
    - rewrite <- Rinv_1. apply Rinv_lt_contravar; lra.
    - replace 4 with (/ / 4) by lra. apply Rinv_lt_contravar; [| lra].
      apply Rmult_lt_0_compat; lra. }
  assert (HN : / 2 <= ln (s0 / Spec.minimum_length) / ln Spec.phi <= 2 ^ 922).
  { unfold Rdiv. change (2 ^ 922) with (2 * (2 * 2 ^ 920)). split; nra. }
  split; [| exact HN].
  apply calculate_nmax_real.
  - apply (in_window_weaken _ _ _ _ _ Hw); lia.
  - right. rewrite Rabs_pos_eq by lra.
    apply Rle_trans with (/ 2); [| lra].
    apply Rinv_le_contravar; [lra |].
    change (2 ^ 1000) with (2 * 2 ^ 999). pose proof (pow_R1_Rle 2 999). lra.
Qed.

Lemma calculate_nmax_at_minimum_length (lambda_seg : float64) :
  calculate_nmax PLANCK_LENGTH lambda_seg = Fin 0.
Proof.
  pose proof minimum_length_pos as Hlp.
  assert (Hq : Spec.minimum_length / Spec.minimum_length = 1) by (field; lra).
  rewrite PLANCK_LENGTH_value, calculate_nmax_real.
  - rewrite Hq, ln_1. f_equal. unfold Rdiv. ring.
  - rewrite Hq. pose proof (pow_R1_Rle 2 1020 ltac:(lra)) as Hp. split; [| exact Hp].
    rewrite <- Rinv_1. apply Rinv_le_contravar; lra.
  - left. rewrite Hq, ln_1. unfold Rdiv. ring.
Qed.

Lemma regular_scale_lower (s0 : R) : regular_scale s0 -> / 2 ^ 119 <= s0.
Proof.
  intros [Hlo _]. pose proof minimum_length_bounds as [Hlp _].
  change (2 ^ 119) with (2 ^ 119) in *.
  apply Rle_trans with (2 * / 2 ^ 120); [| lra].
  change (2 ^ 120) with (2 * 2 ^ 119). rewrite Rinv_mult. lra.
Qed.

Lemma regular_scale_window (s0 : R) : regular_scale s0 -> in_window 119 400 s0.
Proof.
  intros H. split; [apply regular_scale_lower; exact H | apply H].
Qed.

Lemma regular_scale_above (s0 : R) :
  regular_scale s0 -> 2 * Spec.minimum_length <= s0 <= 2 ^ 800.
Proof.
  intros [Hlo Hhi]. split; [exact Hlo |].
  apply Rle_trans with (2 ^ 400); [exact Hhi | apply pow2_le; lia].
Qed.

Lemma regular_scale_1 : regular_scale 1.
Proof.
  pose proof minimum_length_small as Hs. split.
  - apply Rle_trans with (2 * / 2 ^ 110); [lra |].
    change (2 ^ 110) with (2 * 2 ^ 109). rewrite Rinv_mult.
    pose proof (pow_R1_Rle 2 109 ltac:(lra)) as Hp.
    assert (/ 2 ^ 109 <= 1); [| lra].
    rewrite <- Rinv_1. apply Rinv_le_contravar; lra.
  - apply pow_R1_Rle. lra.
Qed.

(** X2.  [calculate_nmax] is exactly zero at the Planck length, non-negative
    on every scale above it and non-positive on every scale from zero up to
    it. *)
Theorem calculate_nmax_sign (s0 : R) (lambda_seg : float64) :
  calculate_nmax PLANCK_LENGTH lambda_seg = Fin 0
  /\ (Spec.minimum_length <= s0 ->
      np_less_equal (Fin 0) (calculate_nmax (Fin s0) lambda_seg) = true)
  /\ (0 <= s0 <= Spec.minimum_length ->
      np_less_equal (calculate_nmax (Fin s0) lambda_seg) (Fin 0) = true).
Proof.
  pose proof minimum_length_pos as Hlp.
  pose proof (calculate_nmax_at_minimum_length lambda_seg) as H0.
  split; [exact H0 |].
  rewrite PLANCK_LENGTH_value in H0. split; intros Hs; rewrite <- H0.
  - apply calculate_nmax_mono_real. lra.
  - apply calculate_nmax_mono_real. lra.
Qed.

(** The run of [calculate_nmax] without rounding errors, on a regular
    scale. *)
Lemma calculate_nmax_exact (s0 : R) :
  regular_scale s0 ->
  Rounded.calculate_nmax Spec.phi Spec.minimum_length s0
    (ln (s0 / Spec.minimum_length) / ln Spec.phi)
  /\ / 2 <= ln (s0 / Spec.minimum_length) / ln Spec.phi <= 2 ^ 922.
Proof.
  intros Hreg.
  destruct (quotient_window s0 (regular_scale_above s0 Hreg)) as [H2 Hq].
  destruct (calculate_nmax_above s0 lambda_seg_default
              (regular_scale_above s0 Hreg)) as [_ HN].
  pose proof ln_phi_bounds as [Hl1 Hl2].
  pose proof (ln_window _ _ _ Hq) as [_ HLhi].
  assert (HL : / 2 < ln (s0 / Spec.minimum_length)).
  { apply Rlt_le_trans with (ln 2); [exact ln_2_lower |].
    apply ln_monotone; lra. }
  split; [| exact HN].
  exists (s0 / Spec.minimum_length), (ln (s0 / Spec.minimum_length)),
         (ln Spec.phi).
  split; [apply (rounded_window 0 920); try lia; exact Hq |].
  split; [lra |].
  split; [apply (rounded_window 1 920); try lia; split; [simpl; lra | lra] |].
  split; [exact phi_pos |].
  split; [apply (rounded_window 2 0); try lia; split; simpl; lra |].
  apply (rounded_window 1 922); try lia. split; [simpl; lra | apply HN].
Qed.

(** On a regular scale the float64 value of [calculate_nmax], which is
    computed without rounding in [Numpy], is the result of one of the runs
    with rounding errors: the one where every error is zero. *)
Lemma calculate_nmax_unrounded (s0 : R) (lambda_seg : float64) :
  regular_scale s0 ->
  exists N_max : R,
    calculate_nmax (Fin s0) lambda_seg = Fin N_max
    /\ Rounded.calculate_nmax Spec.phi Spec.minimum_length s0 N_max.
Proof.
  intros Hreg.
  exists (ln (s0 / Spec.minimum_length) / ln Spec.phi). split.
  - apply calculate_nmax_above, regular_scale_above. exact Hreg.
  - apply calculate_nmax_exact. exact Hreg.
Qed.

(** X3.  One more golden-ratio step of scale is one more segment, up to
    rounding: for a positive scale [s0], and whatever the rounding errors of
    the operations, [calculate_nmax(s0 * PHI)] and [calculate_nmax(s0) + 1]
    differ by at most [1e-9]. *)
Theorem calculate_nmax_phi_step (P lp s0 s1 N0 N1 S : R) :
  Rounded.PHI P -> Rounded.PLANCK_LENGTH lp -> 0 < s0 ->
  rounded (s0 * P) s1 ->
  Rounded.calculate_nmax P lp s0 N0 ->
  Rounded.calculate_nmax P lp s1 N1 ->
  rounded (N0 + 1) S ->
  Rabs (N1 - S) <= 1e-9.
Proof.
  intros HPHI HPL Hs0 Hs1 HN0 HN1 HS.
  pose proof (PHI_rounded_bounds P HPHI) as HP.
  pose proof (PLANCK_LENGTH_rounded_pos lp HPL) as Hlp.
  pose proof (ln_P_bounds P HP) as [Hd1 Hd2].
  pose proof rounding_unit_bounds as [Hu0 _].
  pose proof rounding_unit_small as Hu1.
  assert (Hm : 0 < s0 * P) by (apply Rmult_lt_0_compat; lra).
  destruct (rounded_ln _ _ Hs1 Hm) as [Hs10 He].
  rewrite ln_mult in He by lra.
  destruct (calculate_nmax_error P lp s0 N0 HP Hlp Hs0 HN0) as [HK0 HE0].
  destruct (calculate_nmax_error P lp s1 N1 HP Hlp Hs10 HN1) as [_ HE1].
  pose proof (segments_exact P lp s0 ltac:(lra) Hlp Hs0) as HX0.
  pose proof (segments_exact P lp s1 ltac:(lra) Hlp Hs10) as HX1.
  pose proof (rounded_abs _ _ HS) as HeS.
  set (u := rounding_unit) in *. set (d := ln P) in *.
  set (X0 := ln (s0 / lp) / d) in *. set (X1 := ln (s1 / lp) / d) in *.
  apply Rabs_bound in HK0. apply Rabs_bound in HE0. apply Rabs_bound in HE1.
  destruct (quotient_bound (X1 - X0 - 1) d (2 * u)) as [HW1 HW2]; [lra | |].
  { replace ((X1 - X0 - 1) * d) with (X1 * d - X0 * d - d) by ring.
    rewrite HX0, HX1. lra. }
  assert (HN0b : Rabs (N0 + 1) <= 1528) by (apply Rabs_bound; lra).
  assert (HSb : u * Rabs (N0 + 1) <= u * 1528)
    by (apply Rmult_le_compat_l; lra).
  apply Rabs_bound in HeS. apply Rabs_bound. lra.
Qed.

Lemma regular_scale_phi : regular_scale (1 * Spec.phi).
Proof.
  pose proof phi_bounds as [Hlo Hhi]. destruct regular_scale_1 as [H1 _].
  split; [lra |].
  apply Rle_trans with (2 ^ 1); [simpl; lra | apply pow2_le; lia].
Qed.

Lemma calculate_nmax_phi_step_at_1 :
  exists s1 N0 N1 S : R,
    Rounded.PHI Spec.phi /\ Rounded.PLANCK_LENGTH Spec.minimum_length /\
    0 < 1 /\ rounded (1 * Spec.phi) s1 /\
    Rounded.calculate_nmax Spec.phi Spec.minimum_length 1 N0 /\
    Rounded.calculate_nmax Spec.phi Spec.minimum_length s1 N1 /\
    rounded (N0 + 1) S /\
    Rabs (N1 - S) <= 1e-9.
Proof.
  destruct (calculate_nmax_exact 1 regular_scale_1) as [H0 [Hlo Hhi]].
  destruct (calculate_nmax_exact _ regular_scale_phi) as [H1 _].
  pose proof phi_bounds as [Hp1 Hp2].
  assert (Hs1 : rounded (1 * Spec.phi) (1 * Spec.phi)).
  { apply (rounded_window 0 1); try lia. split; simpl; lra. }
  assert (HS : rounded (ln (1 / Spec.minimum_length) / ln Spec.phi + 1)
                       (ln (1 / Spec.minimum_length) / ln Spec.phi + 1)).
  { apply (rounded_window 0 923); try lia. split; [simpl; lra |].
    change (2 ^ 923) with (2 * 2 ^ 922).
    pose proof (pow_R1_Rle 2 922 ltac:(lra)). lra. }
  exists (1 * Spec.phi), (ln (1 / Spec.minimum_length) / ln Spec.phi),
         (ln (1 * Spec.phi / Spec.minimum_length) / ln Spec.phi),
         (ln (1 / Spec.minimum_length) / ln Spec.phi + 1).
  split; [exact PHI_exact |]. split; [exact PLANCK_LENGTH_exact |].
  split; [exact Rlt_0_1 |]. split; [exact Hs1 |]. split; [exact H0 |].
  split; [exact H1 |]. split; [exact HS |].
  exact (calculate_nmax_phi_step _ _ _ _ _ _ _ PHI_exact PLANCK_LENGTH_exact
           Rlt_0_1 Hs1 H0 H1 HS).
Defined.

Lemma sqrt_regular (a b : R) :
  regular_scale a -> regular_scale b -> regular_scale (sqrt (a * b)).
Proof.
  intros [Hal Hah] [Hbl Hbh]. pose proof minimum_length_pos as Hlp.
  split.
  - rewrite <- (sqrt_square (2 * Spec.minimum_length)) by lra.
    apply sqrt_le_1_alt. nra.
  - rewrite <- (sqrt_square (2 ^ 400)) by (left; apply pow2_pos).
    apply sqrt_le_1_alt.
    pose proof (pow2_pos 400). apply Rmult_le_compat; lra.
Qed.

(** X4.  The segment count of the geometric mean of two scales is the
    arithmetic mean of their segment counts, up to rounding: for positive
    scales [a] and [b], and whatever the rounding errors of the operations,
    [calculate_nmax(np.sqrt(a * b))] and
    [(calculate_nmax(a) + calculate_nmax(b)) / 2] differ by at most [1e-9];
    the script computes [s0_typical] and [N_max_typical] this way. *)
Theorem calculate_nmax_geometric_mean (P lp a b s Na Nb Ns sum M : R) :
  Rounded.PHI P -> Rounded.PLANCK_LENGTH lp -> 0 < a -> 0 < b ->
  Rounded.geometric_mean a b s ->
  Rounded.calculate_nmax P lp a Na ->
  Rounded.calculate_nmax P lp b Nb ->
  Rounded.calculate_nmax P lp s Ns ->
  rounded (Na + Nb) sum -> rounded (sum / 2) M ->
  Rabs (Ns - M) <= 1e-9.
Proof.
  intros HPHI HPL Ha Hb (m & Hm & _ & Hs) HNa HNb HNs Hsum HM.
  pose proof (PHI_rounded_bounds P HPHI) as HP.
  pose proof (PLANCK_LENGTH_rounded_pos lp HPL) as Hlp.
  pose proof (ln_P_bounds P HP) as [Hd1 Hd2].
  pose proof rounding_unit_bounds as [Hu0 _].
  pose proof rounding_unit_small as Hu1.
  assert (Hab : 0 < a * b) by (apply Rmult_lt_0_compat; assumption).
  destruct (rounded_ln _ _ Hm Hab) as [Hm0 He1].
  rewrite ln_mult in He1 by assumption.
  destruct (rounded_ln _ _ Hs (sqrt_lt_R0 m Hm0)) as [Hs0 He2].
  rewrite ln_sqrt_half in He2 by exact Hm0.
  destruct (calculate_nmax_error P lp a Na HP Hlp Ha HNa) as [HKa HEa].
  destruct (calculate_nmax_error P lp b Nb HP Hlp Hb HNb) as [HKb HEb].
  destruct (calculate_nmax_error P lp s Ns HP Hlp Hs0 HNs) as [_ HEs].
  pose proof (segments_exact P lp a ltac:(lra) Hlp Ha) as HXa.
  pose proof (segments_exact P lp b ltac:(lra) Hlp Hb) as HXb.
  pose proof (segments_exact P lp s ltac:(lra) Hlp Hs0) as HXs.
  pose proof (rounded_abs _ _ Hsum) as Hesum.
  pose proof (rounded_abs _ _ HM) as HeM.
  set (u := rounding_unit) in *. set (d := ln P) in *.
  set (Xa := ln (a / lp) / d) in *. set (Xb := ln (b / lp) / d) in *.
  set (Xs := ln (s / lp) / d) in *.
  apply Rabs_bound in HKa. apply Rabs_bound in HEa.
  apply Rabs_bound in HKb. apply Rabs_bound in HEb. apply Rabs_bound in HEs.
  destruct (quotient_bound (Xs - (Xa + Xb) / 2) d (3 * u)) as [HW1 HW2];
    [lra | |].
  { replace ((Xs - (Xa + Xb) / 2) * d)
      with (Xs * d - (Xa * d + Xb * d) / 2) by field.
    rewrite HXa, HXb, HXs. lra. }
  assert (Hab1 : Rabs (Na + Nb) <= 3054) by (apply Rabs_bound; lra).
  assert (Hab2 : u * Rabs (Na + Nb) <= u * 3054)
    by (apply Rmult_le_compat_l; lra).
  apply Rabs_bound in Hesum.
  assert (Hs1 : Rabs (sum / 2) <= 1528) by (apply Rabs_bound; lra).
  assert (Hs2 : u * Rabs (sum / 2) <= u * 1528)
    by (apply Rmult_le_compat_l; lra).
  apply Rabs_bound in HeM. apply Rabs_bound. lra.
Qed.

(** The scales of the script. *)

Lemma s0_compton_bounds :
  / 2 ^ 50 <= h_planck / (2 * PI) / (9.109e-31 * 299792458) <= 1.
Proof.
  pose proof PI_bounds as [Hlo Hhi]. unfold h_planck.
  assert (Hinv : / 8 <= / (2 * PI) <= / 6).
  { split; apply Rinv_le_contravar; lra. }
  assert (Hd : 0 < / (9.109e-31 * 299792458)) by (apply Rinv_0_lt_compat; lra).
  assert (Hn : 6.62607015e-34 * / 8 <= 6.62607015e-34 / (2 * PI)
               <= 6.62607015e-34 * / 6) by (unfold Rdiv; split; nra).
  split.
  - apply Rle_trans with (6.62607015e-34 * / 8 / (9.109e-31 * 299792458)); [lra |].
    unfold Rdiv at 2. unfold Rdiv at 2.
    apply Rmult_le_compat_r; lra.
  - apply Rle_trans with (6.62607015e-34 * / 6 / (9.109e-31 * 299792458)); [| lra].
    unfold Rdiv at 1. unfold Rdiv at 3.
    apply Rmult_le_compat_r; lra.
Qed.

Lemma minimum_length_twice : 2 * Spec.minimum_length <= / 2 ^ 109.
Proof.
  pose proof minimum_length_small as Hs.
  change (2 ^ 110) with (2 * 2 ^ 109) in Hs. rewrite Rinv_mult in Hs. lra.
Qed.

Lemma s0_schwarzschild_regular :
  regular_scale (2 * 6.67430e-11 * 1.989e30 / 299792458 ^ 2).
Proof.
  pose proof minimum_length_twice as Hs. split.
  - apply Rle_trans with (/ 2 ^ 109); [exact Hs | lra].
  - apply Rle_trans with (2 ^ 12); [lra | apply pow2_le; lia].
Qed.

Lemma s0_compton_regular :
  regular_scale (h_planck / (2 * PI) / (9.109e-31 * 299792458)).
Proof.
  pose proof minimum_length_twice as Hs. pose proof s0_compton_bounds as [Hlo Hhi].
  split.
  - apply Rle_trans with (/ 2 ^ 109); [exact Hs |].
    apply Rle_trans with (/ 2 ^ 50); [| exact Hlo].
    apply Rinv_le_contravar; [apply pow2_pos | apply pow2_le; lia].
  - apply Rle_trans with 1; [exact Hhi | apply pow_R1_Rle; lra].
Qed.

(** The scales of the script: [N_max_typical] against the mean of
    [N_max_schwarzschild] and [N_max_compton], in the run without rounding
    errors. *)
Lemma N_max_typical_is_mean :
  exists s Na Nb Ns sum M : R,
    Rounded.PHI Spec.phi /\ Rounded.PLANCK_LENGTH Spec.minimum_length /\
    0 < 2 * 6.67430e-11 * 1.989e30 / 299792458 ^ 2 /\
    0 < h_planck / (2 * PI) / (9.109e-31 * 299792458) /\
    Rounded.geometric_mean (2 * 6.67430e-11 * 1.989e30 / 299792458 ^ 2)
      (h_planck / (2 * PI) / (9.109e-31 * 299792458)) s /\
    Rounded.calculate_nmax Spec.phi Spec.minimum_length
      (2 * 6.67430e-11 * 1.989e30 / 299792458 ^ 2) Na /\
    Rounded.calculate_nmax Spec.phi Spec.minimum_length
      (h_planck / (2 * PI) / (9.109e-31 * 299792458)) Nb /\
    Rounded.calculate_nmax Spec.phi Spec.minimum_length s Ns /\
    rounded (Na + Nb) sum /\ rounded (sum / 2) M /\
    Rabs (Ns - M) <= 1e-9.
Proof.
  pose proof s0_schwarzschild_regular as Ra.
  pose proof s0_compton_regular as Rb.
  set (a := 2 * 6.67430e-11 * 1.989e30 / 299792458 ^ 2) in *.
  set (b := h_planck / (2 * PI) / (9.109e-31 * 299792458)) in *.
  pose proof (regular_scale_window a Ra) as Hwa.
  pose proof (regular_scale_window b Rb) as Hwb.
  pose proof (in_window_pos _ _ _ Hwa) as Ha0.
  pose proof (in_window_pos _ _ _ Hwb) as Hb0.
  pose proof (in_window_mult _ _ _ _ _ _ Hwa Hwb) as Hab.
  pose proof (sqrt_regular a b Ra Rb) as Rs.
  destruct (calculate_nmax_exact a Ra) as [HNa [Ha1 Ha2]].
  destruct (calculate_nmax_exact b Rb) as [HNb [Hb1 Hb2]].
  destruct (calculate_nmax_exact _ Rs) as [HNs _].
  pose proof (pow_R1_Rle 2 922 ltac:(lra)) as H922.
  assert (Hg : Rounded.geometric_mean a b (sqrt (a * b))).
  { exists (a * b).
    split; [by_window Hab |].
    split; [left; apply (in_window_pos _ _ _ Hab) |].
    apply (rounded_window 119 400); try lia.
    apply regular_scale_window. exact Rs. }
  set (Na := ln (a / Spec.minimum_length) / ln Spec.phi) in *.
  set (Nb := ln (b / Spec.minimum_length) / ln Spec.phi) in *.
  assert (Hsum : rounded (Na + Nb) (Na + Nb)).
  { apply (rounded_window 0 923); try lia. split; [simpl; lra |].
    change (2 ^ 923) with (2 * 2 ^ 922). lra. }
  assert (HM : rounded ((Na + Nb) / 2) ((Na + Nb) / 2)).
  { apply (rounded_window 1 922); try lia. split; [simpl; lra | lra]. }
  exists (sqrt (a * b)), Na, Nb,
         (ln (sqrt (a * b) / Spec.minimum_length) / ln Spec.phi),
         (Na + Nb), ((Na + Nb) / 2).
  split; [exact PHI_exact |]. split; [exact PLANCK_LENGTH_exact |].
  split; [exact Ha0 |]. split; [exact Hb0 |]. split; [exact Hg |].
  split; [exact HNa |]. split; [exact HNb |]. split; [exact HNs |].
  split; [exact Hsum |]. split; [exact HM |].
  exact (calculate_nmax_geometric_mean _ _ _ _ _ _ _ _ _ _
           PHI_exact PLANCK_LENGTH_exact Ha0 Hb0 Hg HNa HNb HNs Hsum HM).
Defined.

(** X5.  The special values of the scale: [calculate_nmax(inf) = inf],
    [calculate_nmax(-inf)] and [calculate_nmax(nan)] are NaN. *)
Theorem calculate_nmax_specials (lambda_seg : float64) :
  calculate_nmax PInf lambda_seg = PInf
  /\ calculate_nmax NInf lambda_seg = NaN
  /\ calculate_nmax NaN lambda_seg = NaN.
Proof.
  split; [apply calculate_nmax_PInf |].
  unfold calculate_nmax. rewrite PLANCK_LENGTH_value.
  unfold np_divide at 2 4. rewrite Rsgn_pos by apply minimum_length_pos.
  split; reflexivity.
Qed.

(** ** [pi_eff] beyond the reference call *)

Lemma np_multiply_zero_l (y : float64) :
  np_multiply (Fin 0) y = Fin 0 \/ np_multiply (Fin 0) y = NaN.
Proof.
  destruct y as [r | | |]; unfold np_multiply; try rewrite Rsgn_zero;
    try (right; reflexivity).
  left. rewrite Rmult_0_l. apply float64_of_R_0.
Qed.

Lemma np_multiply_zero_r (x : float64) :
  np_multiply x (Fin 0) = Fin 0 \/ np_multiply x (Fin 0) = NaN.
Proof.
  destruct x as [r | | |]; unfold np_multiply; try rewrite Rsgn_zero;
    try (right; reflexivity).
  left. rewrite Rmult_0_r. apply float64_of_R_0.
Qed.

Lemma np_multiply_two_zero : np_multiply (Fin 2) (Fin 0) = Fin 0.
Proof. unfold np_multiply. rewrite Rmult_0_r. apply float64_of_R_0. Qed.

Lemma np_divide_zero_zero : np_divide (Fin 0) (Fin 0) = NaN.
Proof. unfold np_divide. rewrite Rsgn_zero. reflexivity. Qed.

Lemma np_multiply_nan_r (x : float64) : np_multiply x NaN = NaN.
Proof. destruct x; reflexivity. Qed.

Lemma np_divide_nan_r (x : float64) : np_divide x NaN = NaN.
Proof. destruct x; reflexivity. Qed.

(** X6.  A zero radius does not raise: for every segment count and growth
    rate, special values included, [pi_eff(N, 0.0, lambda)] is NaN. *)
Theorem pi_eff_zero_radius (N lambda_seg : float64) :
  pi_eff N (Fin 0) lambda_seg = NaN.
Proof.
  unfold pi_eff.
  destruct (np_multiply_zero_l (np_exp (np_multiply lambda_seg N))) as [-> | ->].
  2: { rewrite np_multiply_nan_r. apply np_divide_nan_r. }
  rewrite np_multiply_two_zero.
  destruct (np_multiply_zero_l (np_power PHI (np_negative N))) as [-> | ->].
  - destruct (np_multiply_zero_r N) as [-> | ->];
      [apply np_divide_zero_zero | reflexivity].
  - rewrite np_multiply_nan_r. reflexivity.
Qed.

(** X7.  The reference radius cancels, up to rounding: for a positive
    segment count [N] and a positive radius [R0], with [|lambda_seg N|] at
    most 1000 and whatever the rounding errors of the operations,
    [pi_eff(N, R0, lambda_seg)] and [pi_eff(N, 1.0, lambda_seg)] differ by at
    most the fraction [1e-9] of the latter. *)
Theorem pi_eff_radius_cancels (P N R0 lambda_seg v v1 : R) :
  0 < N -> 0 < R0 -> Rabs (lambda_seg * N) <= 1000 ->
  Rounded.pi_eff P N R0 lambda_seg v ->
  Rounded.pi_eff P N 1 lambda_seg v1 ->
  Rabs (v - v1) <= 1e-9 * v1.
Proof.
  intros HN HR0 Hl Hv Hv1.
  pose proof rounding_unit_bounds as [Hu0 _].
  pose proof rounding_unit_small as Hu1.
  destruct (pi_eff_ln P N R0 lambda_seg v HN HR0 Hv) as [Hv0 He].
  destruct (pi_eff_ln P N 1 lambda_seg v1 HN Rlt_0_1 Hv1) as [Hv10 He1].
  set (u := rounding_unit) in *. set (A := Rabs (lambda_seg * N)) in *.
  assert (HAu : A * u <= 1000 * u) by (apply Rmult_le_compat_r; lra).
  apply Rabs_bound in He. apply Rabs_bound in He1.
  pose proof (close_of_ln v1 v (2022 * u) Hv10 Hv0 ltac:(lra) ltac:(lra)) as Hc.
  apply Rle_trans with (2 * (2022 * u) * v1); [exact Hc |].
  apply Rmult_le_compat_r; lra.
Qed.

(** The run of [pi_eff] without rounding errors, on the default
    [lambda_seg]. *)
Lemma pi_eff_exact (n : nat) (R0 : R) :
  (1 <= n <= 128)%nat -> in_window 200 200 R0 ->
  Rounded.pi_eff Spec.phi (INR n) R0 1
    (INR n * (R0 * / Spec.phi ^ n) / (2 * (R0 * exp 1 ^ n))).
Proof.
  intros Hn HR.
  pose proof (in_window_INR n Hn) as HNw.
  pose proof (in_window_pow Spec.phi 1 n phi_window) as HP.
  pose proof (in_window_pow (exp 1) 2 n exp1_window) as HE.
  pose proof (in_window_inv _ _ _ HP) as HIP.
  pose proof (in_window_mult _ _ _ _ _ _ HR HIP) as HS.
  pose proof (in_window_mult _ _ _ _ _ _ HR HE) as HRN.
  pose proof (in_window_mult _ _ _ _ _ _ HNw HS) as HC.
  assert (H2 : in_window 0 1 2) by (split; simpl; lra).
  pose proof (in_window_mult _ _ _ _ _ _ H2 HRN) as H2R.
  pose proof (in_window_div _ _ _ _ _ _ HC H2R) as HV.
  pose proof (in_window_pos _ _ _ H2R) as Hden.
  exists (R0 * / Spec.phi ^ n), (INR n), (exp 1 ^ n), (R0 * exp 1 ^ n),
         (INR n * (R0 * / Spec.phi ^ n)), (2 * (R0 * exp 1 ^ n)).
  split.
  { exists (/ Spec.phi ^ n). split; [exact phi_pos |].
    rewrite Rpower_phi_opp.
    split; [by_window HIP |].
    by_window HS. }
  rewrite Rmult_1_l.
  split; [by_window HNw |].
  rewrite exp_INR.
  split; [by_window HE |].
  split; [by_window HRN |].
  split; [by_window HC |].
  split; [by_window H2R |].
  split; [lra |].
  by_window HV.
Qed.

Lemma pi_eff_radius_cancels_example :
  exists v v1 : R,
    0 < INR 42 /\ 0 < 3 /\ Rabs (1 * INR 42) <= 1000 /\
    Rounded.pi_eff Spec.phi (INR 42) 3 1 v /\
    Rounded.pi_eff Spec.phi (INR 42) 1 1 v1 /\
    Rabs (v - v1) <= 1e-9 * v1.
Proof.
  assert (H3 : in_window 200 200 3).
  { apply (in_window_weaken 0 2); try lia. split; simpl; lra. }
  pose proof (pi_eff_exact 42 3 ltac:(lia) H3) as Hv.
  assert (H1 : in_window 200 200 1).
  { apply (in_window_weaken 0 0); try lia. split; simpl; lra. }
  pose proof (pi_eff_exact 42 1 ltac:(lia) H1) as Hv1.
  assert (HN : 0 < INR 42) by (apply lt_0_INR; lia).
  assert (Hl : Rabs (1 * INR 42) <= 1000).
  { rewrite Rmult_1_l, Rabs_pos_eq by lra.
    replace 1000 with (INR 1000) by (rewrite INR_IZR_INZ; reflexivity).
    apply le_INR. lia. }
  assert (H0 : 0 < 3) by lra.
  eexists. eexists.
  split; [exact HN |]. split; [exact H0 |]. split; [exact Hl |].
  split; [exact Hv |]. split; [exact Hv1 |].
  exact (pi_eff_radius_cancels _ _ _ _ _ _ HN H0 Hl Hv Hv1).
Defined.

(** X8.  With no segment the result is zero: [pi_eff(0, R0, lambda) = 0] for
    every radius between [2^-200] and [2^200] and every finite growth
    rate. *)
Theorem pi_eff_at_zero (R0 lambda_seg : R) :
  in_window 200 200 R0 ->
  pi_eff (np_int 0) (Fin R0) (Fin lambda_seg) = Fin 0.
Proof.
  intros HR. pose proof (in_window_pos _ _ _ HR) as HR0.
  assert (H2 : in_window 0 1 2) by (split; simpl; lra).
  pose proof (in_window_mult _ _ _ _ _ _ H2 HR) as H2R.
  unfold pi_eff, np_int. rewrite PHI_value.
  unfold np_negative, np_power. rewrite Ropp_0, Reqb_true.
  unfold np_multiply. rewrite Rmult_1_r, Rmult_0_r.
  rewrite (float64_of_R_window _ _ _ HR) by lia.
  rewrite Rmult_0_l, !float64_of_R_0.
  unfold np_exp. rewrite exp_0.
  rewrite (float64_of_R_pos 0 0) by (try lia; simpl; lra).
  rewrite Rmult_1_r.
  rewrite (float64_of_R_window _ _ _ HR) by lia.
  rewrite (float64_of_R_window _ _ _ H2R) by lia.
  unfold np_divide. rewrite Rsgn_pos by lra.
  replace (0 / (2 * R0)) with 0 by (unfold Rdiv; ring).
  apply float64_of_R_0.
Qed.

Lemma in_window_1 (m n : nat) : in_window m n 1.
Proof.
  pose proof (pow_R1_Rle 2 m ltac:(lra)) as Hm. split.
  - apply Rle_trans with (/ 1); [| rewrite Rinv_1; lra].
    apply Rinv_le_contravar; lra.
  - apply pow_R1_Rle. lra.
Qed.

Lemma pi_eff_at_zero_example :
  pi_eff (np_int 0) R0_default lambda_seg_default = Fin 0.
Proof. apply (pi_eff_at_zero 1 1), in_window_1. Defined.

(** X9.  Over the integers [1 <= N < 128] the samples of [pi_eff] with the
    default parameters decrease strictly, each one at most half of its
    predecessor. *)
Theorem pi_eff_halves (N : Z) :
  (1 <= N < 128)%Z ->
  np_less (pi_eff (np_int (N + 1)) R0_default lambda_seg_default)
          (pi_eff (np_int N) R0_default lambda_seg_default) = true
  /\ np_less_equal
       (np_multiply (Fin 2) (pi_eff (np_int (N + 1)) R0_default lambda_seg_default))
       (pi_eff (np_int N) R0_default lambda_seg_default) = true.
Proof.
  intros HN.
  set (n := Z.to_nat N). assert (Hn : (1 <= n < 128)%nat) by lia.
  assert (HNn : N = Z.of_nat n) by (apply Z_as_nat; lia).
  clearbody n. subst N.
  replace (Z.of_nat n + 1)%Z with (Z.of_nat (S n)) by lia.
  rewrite !pi_eff_value by lia.
  pose proof (effective_pi_ref_half n ltac:(lia)) as Hhalf.
  pose proof (effective_pi_ref_pos n ltac:(lia)) as Hpos.
  pose proof (effective_pi_ref_window (S n) ltac:(lia)) as Hw.
  assert (H2 : in_window 0 1 2) by (split; simpl; lra).
  pose proof (in_window_mult _ _ _ _ _ _ H2 Hw) as H2w.
  split.
  - unfold np_less. apply Rltb_true. lra.
  - unfold np_multiply. rewrite (float64_of_R_window _ _ _ H2w) by lia.
    unfold np_less_equal. apply Rleb_true. lra.
Qed.

Lemma pi_eff_halves_at_1 :
  np_less (pi_eff (np_int 2) R0_default lambda_seg_default)
          (pi_eff (np_int 1) R0_default lambda_seg_default) = true
  /\ np_less_equal
       (np_multiply (Fin 2) (pi_eff (np_int 2) R0_default lambda_seg_default))
       (pi_eff (np_int 1) R0_default lambda_seg_default) = true.
Proof. apply (pi_eff_halves 1). lia. Defined.

(** ** The scan on arbitrary samples *)

Lemma where_from_In (mask : list bool) (i k : nat) :
  In k (where_from i mask) <->
  exists j, k = (i + j)%nat /\ nth_error mask j = Some true.
Proof.
  revert i. induction mask as [| b t IH]; intros i.
  - simpl. split; [contradiction |]. intros (j & _ & Hj). destruct j; discriminate.
  - destruct b; simpl.
    + rewrite IH. split.
      * intros [<- | (j & -> & Hj)].
        -- exists 0%nat. split; [lia | reflexivity].
        -- exists (S j). split; [lia | exact Hj].
      * intros ([| j] & -> & Hj).
        -- left. lia.
        -- right. exists j. split; [lia | exact Hj].
    + rewrite IH. split.
      * intros (j & -> & Hj). exists (S j). split; [lia | exact Hj].
      * intros ([| j] & -> & Hj); [discriminate |].
        exists j. split; [lia | exact Hj].
Qed.

Lemma where_from_sorted (mask : list bool) (i : nat) :
  StronglySorted lt (where_from i mask).
Proof.
  revert i. induction mask as [| b t IH]; intros i; [constructor |].
  destruct b; simpl; [| apply IH].
  constructor; [apply IH |].
  apply Forall_forall. intros k Hk.
  apply where_from_In in Hk. destruct Hk as (j & -> & _). lia.
Qed.

Lemma convergence_index_In (v : list float64) (eps : float64) (k : nat) :
  In k (convergence_index v eps) <-> Spec.below v eps k.
Proof.
  unfold convergence_index, np_where. rewrite where_from_In, <- mask_nth.
  split.
  - intros (j & -> & Hj). exact Hj.
  - intros H. exists k. split; [reflexivity | exact H].
Qed.

(** X10.  [convergence_index] lists exactly the indices whose successive
    difference is below the tolerance, in strictly ascending order, and
    each of them has a sample after it. *)
Theorem convergence_index_characterised (v : list float64) (eps : float64) :
  (forall k, In k (convergence_index v eps) <-> Spec.below v eps k)
  /\ StronglySorted lt (convergence_index v eps)
  /\ (forall k, In k (convergence_index v eps) -> (S k < length v)%nat).
Proof.
  split; [intros k; apply convergence_index_In |].
  split; [apply where_from_sorted |].
  intros k Hk. apply convergence_index_In in Hk.
  destruct Hk as (a & b & _ & Hb & _).
  apply nth_error_Some. congruence.
Qed.

Lemma np_abs_cases (d : float64) :
  (exists x, 0 <= x /\ np_abs d = Fin x) \/ np_abs d = PInf \/ np_abs d = NaN.
Proof.
  destruct d as [x | | |]; simpl; auto.
  left. exists (Rabs x). split; [apply Rabs_pos | reflexivity].
Qed.

Lemma useless_tolerance_never_below (v : list float64) (eps : float64) (i : nat) :
  useless_tolerance eps -> ~ Spec.below v eps i.
Proof.
  intros Hu (a & b & _ & _ & Hlt).
  destruct (np_abs_cases (np_subtract b a)) as [(x & Hx & Hd) | [Hd | Hd]];
    rewrite Hd in Hlt; destruct eps as [e | | |]; simpl in Hu, Hlt;
    try discriminate; try contradiction.
  apply Rltb_spec in Hlt. lra.
Qed.

(** X11.  A tolerance that is zero, negative, [-inf] or NaN never gives
    convergence: [convergence_index] is empty on every sample sequence and
    the report on a non-empty range is the warning. *)
Theorem useless_tolerance_never_converges
        (front : list Z) (last_N : Z) (v : list float64) (eps : float64) :
  useless_tolerance eps ->
  convergence_index v eps = []
  /\ convergence_report (front ++ [last_N]) v eps
     = Returns (ConvergenceWarning last_N).
Proof.
  intros Hu.
  assert (Hnone : forall i, ~ Spec.below v eps i)
    by (intros i; apply useless_tolerance_never_below; exact Hu).
  split.
  - apply convergence_index_none. exact Hnone.
  - apply convergence_report_warning. exact Hnone.
Qed.

Lemma useless_tolerance_example :
  convergence_index [Fin 1; Fin 1] (Fin 0) = []
  /\ convergence_report ([] ++ [7%Z]) [Fin 1; Fin 1] (Fin 0)
     = Returns (ConvergenceWarning 7).
Proof.
  apply (useless_tolerance_never_converges [] 7 [Fin 1; Fin 1] (Fin 0)).
  simpl. lra.
Defined.

Lemma np_subtract_self (x : R) : np_subtract (Fin x) (Fin x) = Fin 0.
Proof.
  unfold np_subtract, np_negative, np_add. rewrite Rplus_opp_r.
  apply float64_of_R_0.
Qed.

(** X12.  When the first two samples are the same finite number and the
    tolerance is positive, convergence is reported at the first sample,
    whatever follows. *)
Theorem equal_samples_converge_at_once
        (N0 : Z) (Ns : list Z) (x e : R) (rest : list float64) :
  0 < e ->
  convergence_report (N0 :: Ns) (Fin x :: Fin x :: rest) (Fin e)
  = Returns (ConvergenceReached N0 (Fin x)
               (np_abs (np_subtract (Fin x) pi_classical))).
Proof.
  intros He.
  assert (Hfirst : Spec.first_below (Fin x :: Fin x :: rest) (Fin e) 0).
  { split; [| intros j Hj; lia].
    exists (Fin x), (Fin x). repeat split.
    rewrite np_subtract_self. unfold np_abs, np_less.
    rewrite Rabs_R0. apply Rltb_true. exact He. }
  destruct (convergence_index_first _ _ _ Hfirst) as [tl Hidx].
  unfold convergence_report. rewrite Hidx. reflexivity.
Qed.

Lemma equal_samples_example :
  convergence_report [1%Z; 2%Z] [Fin 3; Fin 3] (Fin 1e-10)
  = Returns (ConvergenceReached 1 (Fin 3)
               (np_abs (np_subtract (Fin 3) pi_classical))).
Proof. apply (equal_samples_converge_at_once 1 [2%Z] 3 1e-10 []). lra. Defined.

Lemma np_subtract_nan_l (a : float64) : np_subtract NaN a = NaN.
Proof. reflexivity. Qed.

Lemma np_subtract_nan_r (a : float64) : np_subtract a NaN = NaN.
Proof. destruct a; reflexivity. Qed.

(** X13.  A pair of adjacent samples of which one is NaN, or which are the
    same infinity, is never a convergence point, for any tolerance: the
    difference is NaN and no comparison with NaN holds. *)
Theorem nan_difference_never_converges
        (v : list float64) (eps : float64) (i : nat) (a b : float64) :
  nth_error v i = Some a -> nth_error v (S i) = Some b ->
  a = NaN \/ b = NaN \/ (a = PInf /\ b = PInf) \/ (a = NInf /\ b = NInf) ->
  ~ In i (convergence_index v eps).
Proof.
  intros Ha Hb Hcase Hin.
  apply convergence_index_In in Hin.
  destruct Hin as (a' & b' & Ha' & Hb' & Hlt).
  assert (a' = a) by congruence. assert (b' = b) by congruence. subst a' b'.
  assert (Hd : np_abs (np_subtract b a) = NaN).
  { destruct Hcase as [-> | [-> | [[-> ->] | [-> ->]]]];
      [rewrite np_subtract_nan_r | | |]; reflexivity. }
  rewrite Hd in Hlt. discriminate.
Qed.

Lemma nan_difference_example :
  ~ In 0%nat (convergence_index [PInf; PInf] PInf).
Proof.
  apply (nan_difference_never_converges [PInf; PInf] PInf 0 PInf PInf);
    try reflexivity.
  right. right. left. split; reflexivity.
Defined.

(** X14.  On a non-empty range with as many samples as values the report
    never raises; when it is "convergence reached", the reported [N] and
    value are the entries of one index of the two arrays, and that index is
    not the last one. *)
Theorem convergence_report_total (Ns : list Z) (v : list float64) (eps : float64) :
  length Ns = length v -> Ns <> [] ->
  (exists r, convergence_report Ns v eps = Returns r)
  /\ forall N a d,
       convergence_report Ns v eps = Returns (ConvergenceReached N a d) ->
       exists i, nth_error Ns i = Some N /\ nth_error v i = Some a /\
                 (S i < length v)%nat /\
                 d = np_abs (np_subtract a pi_classical).
Proof.
  intros Hlen Hne.
  destruct (convergence_index v eps) as [| i rest] eqn:Hidx.
  - destruct (exists_last Hne) as (front & last_N & ->).
    assert (Hrep : convergence_report (front ++ [last_N]) v eps
                   = Returns (ConvergenceWarning last_N)).
    { apply convergence_report_warning. apply convergence_index_none. exact Hidx. }
    split; [eexists; exact Hrep |].
    intros N a d H. rewrite Hrep in H. discriminate.
  - pose proof (convergence_index_head v eps i rest Hidx) as Hfirst.
    destruct (convergence_report_reached Ns v eps i Hlen Hfirst)
      as (N & a & HN & Ha & Hrep).
    split; [eexists; exact Hrep |].
    intros N' a' d H. rewrite Hrep in H. injection H as <- <- <-.
    exists i. repeat split; try assumption.
    destruct Hfirst as [(a0 & b0 & _ & Hb0 & _) _].
    apply nth_error_Some. congruence.
Qed.

Lemma convergence_report_total_example :
  exists r, convergence_report [5%Z] [NaN] NaN = Returns r.
Proof.
  apply (convergence_report_total [5%Z] [NaN] NaN); [reflexivity | discriminate].
Defined.

Lemma below_weaken (v : list float64) (e1 e2 : R) (i : nat) :
  e1 <= e2 -> Spec.below v (Fin e1) i -> Spec.below v (Fin e2) i.
Proof.
  intros He (a & b & Ha & Hb & Hlt). exists a, b. repeat split; try assumption.
  destruct (np_abs (np_subtract b a)) as [x | | |]; simpl in *;
    try discriminate; try reflexivity.
  apply Rltb_spec in Hlt. apply Rltb_true. lra.
Qed.

(** X15.  A larger tolerance converges no later: every convergence index for
    [e1] is one for [e2 >= e1], and the first index for [e2] is at most the
    first index for [e1]. *)
Theorem larger_tolerance_converges_no_later
        (v : list float64) (e1 e2 : R) :
  e1 <= e2 ->
  (forall i, In i (convergence_index v (Fin e1)) ->
             In i (convergence_index v (Fin e2)))
  /\ forall i1 rest1,
       convergence_index v (Fin e1) = i1 :: rest1 ->
       exists i2 rest2,
         convergence_index v (Fin e2) = i2 :: rest2 /\ (i2 <= i1)%nat.
Proof.
  intros He.
  assert (Hin : forall i, In i (convergence_index v (Fin e1)) ->
                          In i (convergence_index v (Fin e2))).
  { intros i Hi. apply convergence_index_In. apply (below_weaken v e1 e2 i He).
    apply convergence_index_In. exact Hi. }
  split; [exact Hin |].
  intros i1 rest1 H1.
  assert (Hi1 : In i1 (convergence_index v (Fin e2)))
    by (apply Hin; rewrite H1; left; reflexivity).
  destruct (convergence_index v (Fin e2)) as [| i2 rest2] eqn:H2; [contradiction |].
  exists i2, rest2. split; [reflexivity |].
  destruct (convergence_index_head v (Fin e2) i2 rest2 H2) as [_ Hmin].
  destruct (Nat.le_gt_cases i2 i1) as [Hle | Hgt]; [exact Hle |].
  exfalso. apply (Hmin i1 Hgt). apply convergence_index_In.
  rewrite H2. exact Hi1.
Qed.

Lemma larger_tolerance_example :
  In 0%nat (convergence_index [Fin 1; Fin 1] (Fin 2)).
Proof.
  assert (H12 : 1 <= 2) by lra.
  destruct (larger_tolerance_converges_no_later [Fin 1; Fin 1] 1 2 H12) as [Hin _].
  apply Hin. apply convergence_index_In.
  exists (Fin 1), (Fin 1). repeat split.
  rewrite np_subtract_self. unfold np_abs, np_less.
  rewrite Rabs_R0. apply Rltb_true. lra.
Defined.

(** ** The defining equation of [calculate_nmax] *)

(** X16.  The equation of the docstring, [s0 * phi^(-N_max) = l_p], up to
    rounding: for a positive scale [s0], and whatever the rounding errors of
    the operations, [s0 * PHI**(-calculate_nmax(s0))] differs from
    [PLANCK_LENGTH] by at most the fraction [1e-9] of it. *)
Theorem calculate_nmax_reaches_planck_length (P lp s0 N s : R) :
  Rounded.PHI P -> Rounded.PLANCK_LENGTH lp -> 0 < s0 ->
  Rounded.calculate_nmax P lp s0 N ->
  Rounded.segment_length P s0 N s ->
  Rabs (s - lp) <= 1e-9 * lp.
Proof.
  intros HPHI HPL Hs0 HN Hs.
  pose proof (PHI_rounded_bounds P HPHI) as HP.
  pose proof (PLANCK_LENGTH_rounded_pos lp HPL) as Hlp.
  pose proof (ln_P_bounds P HP) as [Hd1 Hd2].
  pose proof rounding_unit_bounds as [Hu0 _].
  pose proof rounding_unit_small as Hu1.
  destruct (calculate_nmax_error P lp s0 N HP Hlp Hs0 HN) as [_ HE].
  destruct (segment_length_ln P s0 N s Hs0 Hs) as [Hs1 He].
  pose proof (segments_exact P lp s0 ltac:(lra) Hlp Hs0) as HX.
  set (u := rounding_unit) in *. set (d := ln P) in *.
  set (X := ln (s0 / lp) / d) in *.
  apply Rabs_bound in HE.
  assert (Hd : - (3844 * u) <= (X - N) * d <= 3844 * u).
  { destruct HE as [HE1 HE2]. split; nra. }
  assert (Hln : - (3848 * u) <= ln s - ln lp <= 3848 * u).
  { replace (ln s - ln lp)
      with ((ln s - (ln s0 - N * d)) + ((X - N) * d + (ln s0 - ln lp - X * d)))
      by ring.
    rewrite HX. lra. }
  pose proof (close_of_ln lp s (3848 * u) Hlp Hs1 Hln ltac:(lra)) as Hc.
  apply Rle_trans with (2 * (3848 * u) * lp); [exact Hc |].
  apply Rmult_le_compat_r; lra.
Qed.

Lemma calculate_nmax_reaches_planck_length_at_1 :
  exists N s : R,
    Rounded.PHI Spec.phi /\ Rounded.PLANCK_LENGTH Spec.minimum_length /\
    0 < 1 /\
    Rounded.calculate_nmax Spec.phi Spec.minimum_length 1 N /\
    Rounded.segment_length Spec.phi 1 N s /\
    Rabs (s - Spec.minimum_length) <= 1e-9 * Spec.minimum_length.
Proof.
  destruct (calculate_nmax_exact 1 regular_scale_1) as [HN _].
  pose proof minimum_length_pos as Hlp.
  pose proof ln_phi_bounds as [Hl1 Hl2].
  assert (Hwlp : in_window 120 0 Spec.minimum_length).
  { pose proof minimum_length_bounds as [H1 H2]. split; [exact H1 | simpl; lra]. }
  set (N := ln (1 / Spec.minimum_length) / ln Spec.phi) in *.
  assert (Hpow : Rpower Spec.phi (- N) = Spec.minimum_length).
  { unfold Rpower, N.
    replace (- (ln (1 / Spec.minimum_length) / ln Spec.phi) * ln Spec.phi)
      with (- ln (1 / Spec.minimum_length)) by (field; lra).
    rewrite ln_quotient, ln_1 by lra.
    replace (- (0 - ln Spec.minimum_length)) with (ln Spec.minimum_length) by ring.
    apply exp_ln. exact Hlp. }
  assert (Hs : Rounded.segment_length Spec.phi 1 N (1 * Spec.minimum_length)).
  { exists Spec.minimum_length. split; [exact phi_pos |]. rewrite Hpow.
    split; [by_window Hwlp |].
    rewrite Rmult_1_l.
    by_window Hwlp. }
  exists N, (1 * Spec.minimum_length).
  split; [exact PHI_exact |]. split; [exact PLANCK_LENGTH_exact |].
  split; [exact Rlt_0_1 |]. split; [exact HN |]. split; [exact Hs |].
  exact (calculate_nmax_reaches_planck_length _ _ _ _ _
           PHI_exact PLANCK_LENGTH_exact Rlt_0_1 HN Hs).
Defined.
